(** * Survey question pipeline: shallow embedding and verified properties

    The Python sources embedded here are
    - [Part4.py]: cleaning, normalisation, de-duplication, difficulty scoring
      and the interactive TF-IDF retrieval loop;
    - [Q5_v1.py]: the questionnaire generator;
    - [survey_database.py]: the flat-file question store.

    Python strings are sequences of Unicode code points, so [len] counts code
    points; they are modelled as [list N].  Dictionaries are [gmap]s, sets are
    [gset]s.  Third-party libraries (the Unicode tables behind [str.lower],
    [\d] and [\w], spaCy, jieba, scikit-learn) are not part of the repository:
    their entry points are fields of the interface classes below, and every
    property is proved for an arbitrary implementation of them. *)

From Stdlib Require Import ZArith NArith QArith Qminmax List Ascii String Bool Lia.
From Stdlib Require Import Sorting.Sorted Permutation.
From stdpp Require Import gmap list.

Local Open Scope N_scope.

(** ** Python strings and values *)

Module Py.

Definition str := list N.

(** An ASCII literal as a Python string. *)
Definition u (s : string) : str := map N_of_ascii (list_ascii_of_string s).

(** Values that reach the text columns: a string, [None], or the float
    [nan] pandas uses for a missing cell. *)
Inductive value :=
| VStr (s : str)
| VNone
| VNaN.

#[global] Instance value_eq_dec : EqDecision value.
Proof. solve_decision. Defined.

(** [str(v)] *)
Definition to_str (v : value) : str :=
  match v with
  | VStr s => s
  | VNone => u "None"
  | VNaN => u "nan"
  end.

Definition in_range (lo hi c : N) : bool := (lo <=? c) && (c <=? hi).

(** [str.isspace] on one code point; the same class is [\s] in a [str]
    pattern. *)
Definition isspace (c : N) : bool :=
  in_range 0x9 0xd c || in_range 0x1c 0x20 c || (c =? 0x85) || (c =? 0xa0)
  || (c =? 0x1680) || in_range 0x2000 0x200a c || (c =? 0x2028)
  || (c =? 0x2029) || (c =? 0x202f) || (c =? 0x205f) || (c =? 0x3000).

Fixpoint lstrip (s : str) : str :=
  match s with
  | c :: s' => if isspace c then lstrip s' else s
  | [] => []
  end.

Definition rstrip (s : str) : str := rev (lstrip (rev s)).

(** [s.strip()] *)
Definition strip (s : str) : str := rstrip (lstrip s).

(** [s.split()]: the maximal runs of non-space characters. [cur] is the
    run being read, reversed. *)
Fixpoint split_go (cur : str) (s : str) : list str :=
  match s with
  | [] => match cur with [] => [] | _ => [rev cur] end
  | c :: s' =>
      if isspace c
      then match cur with [] => split_go [] s' | _ => rev cur :: split_go [] s' end
      else split_go (c :: cur) s'
  end.

Definition split (s : str) : list str := split_go [] s.

Fixpoint startswith (w s : str) : bool :=
  match w, s with
  | [], _ => true
  | a :: w', b :: s' => (a =? b) && startswith w' s'
  | _ :: _, [] => false
  end.

(** [w in s] *)
Fixpoint contains (w s : str) : bool :=
  startswith w s || match s with [] => false | _ :: s' => contains w s' end.

(** [s.count(c)] for a one-character needle. *)
Definition count_char (c : N) (s : str) : nat :=
  length (List.filter (N.eqb c) s).

(** [s.count(w)]: non-overlapping occurrences, leftmost first; an empty
    needle matches between all characters. *)
Fixpoint count_go (fuel : nat) (w s : str) : nat :=
  match fuel with
  | O => 0
  | S fuel' =>
      match s with
      | [] => 0
      | _ :: s' =>
          if startswith w s
          then S (count_go fuel' w (drop (length w) s))
          else count_go fuel' w s'
      end
  end.

Definition count (w s : str) : nat :=
  match w with
  | [] => S (length s)
  | _ => count_go (length s) w s
  end.

(** [sep.join(parts)] *)
Fixpoint join (sep : str) (parts : list str) : str :=
  match parts with
  | [] => []
  | [p] => p
  | p :: rest => p ++ sep ++ join sep rest
  end.

(** The Unicode character database as Python sees it. *)
Class Unicode := {
  (** [str.lower] *)
  lower : str -> str;
  (** [str.title] *)
  title : str -> str;
  (** [\d] in a [str] pattern: the decimal digits, category Nd *)
  isdecimal : N -> bool;
  (** [\w] in a [str] pattern *)
  isword : N -> bool;
}.

(** The restriction of the tables to ASCII, used to run the model. *)
Definition ascii_lower_char (c : N) : N :=
  if in_range 0x41 0x5a c then c + 32 else c.

Definition ascii_upper_char (c : N) : N :=
  if in_range 0x61 0x7a c then c - 32 else c.

Definition ascii_alpha (c : N) : bool :=
  in_range 0x41 0x5a c || in_range 0x61 0x7a c.

Fixpoint ascii_title_go (inword : bool) (s : str) : str :=
  match s with
  | [] => []
  | c :: s' =>
      (if inword then ascii_lower_char c else ascii_upper_char c)
        :: ascii_title_go (ascii_alpha c) s'
  end.

Definition ascii_unicode : Unicode := {|
  lower := map ascii_lower_char;
  title := ascii_title_go false;
  isdecimal := in_range 0x30 0x39;
  isword := fun c => ascii_alpha c || in_range 0x30 0x39 c || (c =? 0x5f);
|}.

(** A string that [strip] leaves as it is: no space at either end. *)
Definition stripped (s : str) : Prop := lstrip s = s /\ rstrip s = s.

(** [re.split] on a class of single characters: the pieces between the
    separators, empty ones included.  [cur] is the piece being read,
    reversed. *)
Fixpoint split_on (sep : N -> bool) (cur : str) (s : str) : list str :=
  match s with
  | [] => [rev cur]
  | c :: s' =>
      if sep c then rev cur :: split_on sep [] s'
      else split_on sep (c :: cur) s'
  end.

End Py.

Import Py.

(** ** Third-party libraries *)

(** A spaCy token, reduced to the attributes [Part4.py] reads. *)
Record Token := {
  is_punct : bool;
  is_stop : bool;
  lemma_ : str;
}.

(** An ordinary word: neither punctuation nor a stop word. *)
Definition word_token (lemma : str) : Token :=
  {| is_punct := false; is_stop := false; lemma_ := lemma |}.

(** The English spaCy pipeline [en_core_web_sm] and jieba's
    [lcut] word segmentation. *)
Class Nlp := {
  nlp_en : str -> list Token;
  jieba_lcut : str -> list str;
}.

(** The [stop_words] argument of [TfidfVectorizer]. *)
Inductive stop_words :=
| StopEnglish
| StopList (l : list str).

(** scikit-learn's [TfidfVectorizer].  [sk_terms sw doc] are the terms the
    analyzer keeps from one document (lower-cased tokens of two or more
    word characters that are not stop words); [sk_cosine sw corpus query i]
    is the cosine similarity between the vector of [query] and the vector
    of document [i] of the fitted [corpus]. *)
Class Sklearn := {
  sk_terms : stop_words -> str -> list str;
  sk_cosine : stop_words -> list str -> str -> nat -> Q;
}.

(** ** Part4.py *)

Module Part4.

Section WithLibraries.
Context {unicode : Unicode} {nlp : Nlp} {sklearn : Sklearn}.

(** *** 1. Cleaning functions *)

(** One pattern character under [re.IGNORECASE]: besides both cases, [s]
    also matches U+017F and [k] matches U+212A. *)
Definition ci_a (c : N) : bool := (c =? 0x61) || (c =? 0x41).
Definition ci_s (c : N) : bool := (c =? 0x73) || (c =? 0x53) || (c =? 0x17f).
Definition ci_k (c : N) : bool := (c =? 0x6b) || (c =? 0x4b) || (c =? 0x212a).
Definition ci_q (c : N) : bool := (c =? 0x71) || (c =? 0x51).

(** The first [re.sub], case-insensitive and anchored at the start:
    optional spaces, [ask], one or more spaces. *)
Definition sub_ask (text : str) : str :=
  match lstrip text with
  | a :: s :: k :: w :: rest =>
      if ci_a a && ci_s s && ci_k k && isspace w then lstrip rest else text
  | _ => text
  end.

(** The longest prefix of decimal digits, and what follows it. *)
Fixpoint span_digits (s : str) : str * str :=
  match s with
  | c :: s' =>
      if isdecimal c
      then let '(ds, rest) := span_digits s' in (c :: ds, rest)
      else ([], s)
  | [] => ([], [])
  end.

(** The class [[\.:\s]]. *)
Definition is_sep (c : N) : bool := (c =? 0x2e) || (c =? 0x3a) || isspace c.

(** The second [re.sub], case-insensitive and anchored at the start:
    optional spaces, an optional [Q] with optional spaces, one or more
    digits, one separator from [is_sep], optional spaces. *)
Definition sub_enum (text : str) : str :=
  let t0 := lstrip text in
  let t1 := match t0 with
            | c :: r => if ci_q c then lstrip r else t0
            | [] => t0
            end in
  match span_digits t1 with
  | (_ :: _, c :: rest) => if is_sep c then lstrip rest else text
  | _ => text
  end.

(** The class [[a-zA-Z一-龥]]. *)
Definition is_start_char (c : N) : bool :=
  in_range 0x61 0x7a c || in_range 0x41 0x5a c || in_range 0x4e00 0x9fa5 c.

(** [re.search] of a one-character class: the suffix of the text that
    begins at the first match, [text[m.start():]]. *)
Fixpoint search_from (cls : N -> bool) (text : str) : option str :=
  match text with
  | [] => None
  | c :: s' => if cls c then Some text else search_from cls s'
  end.

Definition clean_question_text (text : value) : str :=
  match text with
  | VStr text =>
      let text := sub_ask text in
      let text := sub_enum text in
      let text := match search_from is_start_char text with
                  | Some from_start => from_start
                  | None => text
                  end in
      strip text
  | _ => []
  end.

(** The letters a-z and A-Z, and the CJK Unified Ideographs U+4E00 to
    U+9FFF. *)
Definition is_letter (c : N) : bool :=
  in_range 0x61 0x7a c || in_range 0x41 0x5a c.

Definition is_cjk (c : N) : bool := in_range 0x4e00 0x9fff c.

Definition is_letter_or_cjk (c : N) : bool := is_letter c || is_cjk c.

(** The ideographs U+9FA6 to U+9FFF, which the class of [is_start_char]
    leaves out. *)
Definition is_late_ideograph (c : N) : bool := in_range 0x9fa6 0x9fff c.

Definition all_space (ws : str) : Prop := Forall (fun c => isspace c = true) ws.

(** A text that does not begin with a space. *)
Definition starts_unspaced (t : str) : Prop := lstrip t = t.

(** A leading interrogative marker: optional spaces, the word [ask] in
    any case, one or more spaces. *)
Definition ask_marker (p : str) : Prop :=
  exists ws a b k sp,
    p = ws ++ a :: b :: k :: sp
    /\ all_space ws /\ ci_a a = true /\ ci_s b = true /\ ci_k k = true
    /\ sp <> [] /\ all_space sp.

(** A leading enumeration prefix: optional spaces, an optional [Q] with
    optional spaces, one or more digits, one separator, optional spaces. *)
Definition enum_prefix (p : str) : Prop :=
  exists ws q ds sep sp,
    p = ws ++ q ++ ds ++ sep :: sp
    /\ all_space ws
    /\ (q = [] \/ exists c qs, q = c :: qs /\ ci_q c = true /\ all_space qs)
    /\ ds <> [] /\ Forall (fun d => isdecimal d = true) ds
    /\ is_sep sep = true /\ all_space sp.

(** [t] is [s], or [s] without a leading prefix of the given kind. *)
Definition without_prefix (kind : str -> Prop) (s t : str) : Prop :=
  t = s \/ exists p, kind p /\ s = p ++ t.

(** The digits of the Unicode tables are no spaces, no [Q] and no
    separators. *)
Definition digits_apart : Prop :=
  forall c, isdecimal c = true ->
    isspace c = false /\ ci_q c = false /\ is_sep c = false.

(** A dictionary display [{k1: v1, k2: v2, ...}]: the items are stored
    from left to right. *)
Definition dict_literal (items : list (str * str)) : gmap str str :=
  foldl (fun d kv => <[kv.1 := kv.2]> d) ∅ items.

(** [d.get(k, k)] *)
Definition get_or_self (d : gmap str str) (k : str) : str := default k (d !! k).

Definition synonym_map : gmap str str :=
  dict_literal
    [ (u "hotel", u "accommodation"); (u "hotels", u "accommodation");
      (u "inn", u "accommodation"); (u "resort", u "accommodation");
      (u "surveys", u "survey"); (u "travels", u "travel");
      (u "service", u "hospitality");
      (u "services", u "hospitalitys"); (u "hotel", u "property");
      (u "trip", u "travel"); (u "journey", u "travel") ].

Definition zh_map : gmap str str :=
  dict_literal
    [ ([0x5bbe; 0x9986], [0x9152; 0x5e97]); ([0x996d; 0x5e97], [0x9152; 0x5e97]);
      ([0x4f4f; 0x5bbf], [0x9152; 0x5e97]); ([0x6e38; 0x89c8], [0x65c5; 0x6e38]) ].

(** The body of the loop over the spaCy document. *)
Fixpoint en_tokens (doc : list Token) : list str :=
  match doc with
  | [] => []
  | token :: doc' =>
      if is_punct token || is_stop token then en_tokens doc'
      else get_or_self synonym_map (lemma_ token) :: en_tokens doc'
  end.

(** The class [[^\w\s一-龥]] removed from Chinese text. *)
Definition zh_keep (c : N) : bool :=
  isword c || isspace c || in_range 0x4e00 0x9fa5 c.

Definition normalize_for_dedup (text : value) (lang : str) : str :=
  match text with
  | VStr text =>
      let text := lower text in
      if decide (lang = u "en") then
        join (u " ") (en_tokens (nlp_en text))
      else if decide (lang = u "zh") then
        let text := List.filter zh_keep text in
        let words := jieba_lcut text in
        join (u " ")
          (map (get_or_self zh_map)
             (List.filter (fun w => negb (bool_decide (strip w = []))) words))
      else text
  | _ => []
  end.

(** *** 2. Difficulty scoring *)

(** The cells of a row that [calculate_difficulty] reads. *)
Record series := {
  s_question_text : value;
  s_question_type : value;
  s_options_text : value;
  s_detected_lang : value;
}.

Definition en_hard_words : list str :=
  [u "describe"; u "explain"; u "comprehensive"; u "evaluate";
   u "perspective"; u "why"].

Definition zh_hard_words : list str :=
  [[0x63cf; 0x8ff0]; [0x89e3; 0x91ca]; [0x8be6; 0x7ec6]; [0x8bc4; 0x4f30];
   [0x770b; 0x6cd5]; [0x4e3a; 0x4ec0; 0x4e48]].

Definition calculate_difficulty (row : series) : Z :=
  let score := 1%Z in
  let text := to_str (s_question_text row) in
  let q_type := lower (to_str (s_question_type row)) in
  let options := to_str (s_options_text row) in
  let lang := s_detected_lang row in
  let is_en := bool_decide (lang = VStr (u "en")) in
  (* A. type factor *)
  let score :=
    if contains (u "open_ended") q_type then (score + 2)%Z
    else if contains (u "multiple_choice") q_type
            || contains (u "single_choice") q_type then (score + 1)%Z
    else score in
  (* B. length factor *)
  let score :=
    if is_en then
      let word_count := length (split text) in
      if (30 <? word_count)%nat then (score + 2)%Z
      else if (15 <? word_count)%nat then (score + 1)%Z
      else score
    else
      let char_count := length text in
      if (50 <? char_count)%nat then (score + 2)%Z
      else if (20 <? char_count)%nat then (score + 1)%Z
      else score in
  (* C. options factor *)
  let score :=
    match options with
    | [] => score
    | _ =>
        let option_count := (count_char 0x2f options + 1)%nat in
        if (6 <? option_count)%nat then (score + 1)%Z else score
    end in
  (* D. wording factor *)
  let text_lower := lower text in
  let score :=
    if is_en then
      if existsb (fun w => contains w text_lower) en_hard_words
      then (score + 1)%Z else score
    else
      if existsb (fun w => contains w text_lower) zh_hard_words
      then (score + 1)%Z else score in
  Z.max 1 (Z.min 5 score).

(** *** 4. Loading and processing pipeline *)

(** An item of the input JSON array. *)
Record raw_question := {
  raw_question_text : value;
  raw_question_type : value;
  raw_options_text : value;
}.

(** A row of the data frame once all columns are computed. *)
Record row := {
  question_text : str;
  question_type : value;
  options_text : value;
  detected_lang : str;
  dedup_key : str;
  difficulty_score : Z;
}.

(** The class [[一-龥]], U+4E00 to U+9FA5. *)
Definition is_han_9fa5 (c : N) : bool := in_range 0x4e00 0x9fa5 c.

Definition detect_lang (text : value) : str :=
  if existsb is_han_9fa5 (to_str text) then u "zh" else u "en".

(** Steps 1 and 2: clean the text, keep the rows whose text is longer than
    two characters, detect the language. *)
Definition clean_and_detect (data : list raw_question) : list row :=
  let cleaned :=
    map (fun x => (clean_question_text (raw_question_text x), x)) data in
  let kept := List.filter (fun tx => (2 <? length tx.1)%nat) cleaned in
  map (fun tx =>
         {| question_text := tx.1;
            question_type := raw_question_type tx.2;
            options_text := raw_options_text tx.2;
            detected_lang := detect_lang (VStr tx.1);
            dedup_key := [];
            difficulty_score := 0 |}) kept.

(** The lambda applied to every row in step 3. *)
Definition compute_dedup_key (x : row) : str :=
  normalize_for_dedup
    (VStr (question_text x ++ u " " ++ to_str (options_text x)))
    (detected_lang x).

Definition set_dedup_key (x : row) : row :=
  {| question_text := question_text x;
     question_type := question_type x;
     options_text := options_text x;
     detected_lang := detected_lang x;
     dedup_key := compute_dedup_key x;
     difficulty_score := difficulty_score x |}.

(** [df.drop_duplicates(subset=['dedup_key'], keep='first')]; [seen] holds
    the keys of the rows already kept. *)
Fixpoint drop_duplicates_go (seen : gset str) (df : list row) : list row :=
  match df with
  | [] => []
  | x :: df' =>
      if decide (dedup_key x ∈ seen) then drop_duplicates_go seen df'
      else x :: drop_duplicates_go ({[dedup_key x]} ∪ seen) df'
  end.

Definition drop_duplicates (df : list row) : list row :=
  drop_duplicates_go ∅ df.

(** Step 3. *)
Definition deduplicate (df : list row) : list row :=
  drop_duplicates (map set_dedup_key df).

Definition row_series (x : row) : series :=
  {| s_question_text := VStr (question_text x);
     s_question_type := question_type x;
     s_options_text := options_text x;
     s_detected_lang := VStr (detected_lang x) |}.

Definition set_difficulty (x : row) : row :=
  {| question_text := question_text x;
     question_type := question_type x;
     options_text := options_text x;
     detected_lang := detected_lang x;
     dedup_key := dedup_key x;
     difficulty_score := calculate_difficulty (row_series x) |}.

(** The English and the Chinese table. *)
Definition load_and_process_data (data : list raw_question)
  : list row * list row :=
  let df := clean_and_detect data in
  let df := deduplicate df in
  let df := map set_difficulty df in
  (List.filter (fun x => bool_decide (detected_lang x = u "en")) df,
   List.filter (fun x => bool_decide (detected_lang x = u "zh")) df).

(** What every row of the processed tables satisfies. *)
Definition processed (x : row) : Prop :=
  (2 < length (question_text x))%nat
  /\ stripped (question_text x)
  /\ detected_lang x = detect_lang (VStr (question_text x))
  /\ dedup_key x = compute_dedup_key x
  /\ difficulty_score x = calculate_difficulty (row_series x)
  /\ (1 <= difficulty_score x <= 5)%Z.

(** *** 5. Generation engine *)

Definition zh_stops : list str :=
  [[0x7684]; [0x4e86]; [0x662f]; [0x6211]; [0x4f60]; [0x5728]; [0x548c];
   [0x6709]; [0x53bb]; [0x5417]; [0x6211; 0x4eec]; [0x4ec0; 0x4e48]].

(** What [fit_transform] gives: the fitted corpus, or the [ValueError]
    scikit-learn raises when no document contributes a term (its message
    is: empty vocabulary). *)
Inductive fit_result :=
| ValueError
| Fitted (sw : stop_words) (corpus : list str).

Definition has_no_term (sw : stop_words) (doc : str) : bool :=
  match sk_terms sw doc with [] => true | _ => false end.

Definition fit_transform (sw : stop_words) (docs : list str) : fit_result :=
  if forallb (has_no_term sw) docs then ValueError else Fitted sw docs.

(** The test for the rows that carry a given key. *)
Definition has_key (k : str) (x : row) : bool := bool_decide (dedup_key x = k).

(** The number of non-empty documents of the corpus. *)
Definition nonempty_documents (df : list row) : nat :=
  length (List.filter (fun x => negb (bool_decide (dedup_key x = []))) df).

(** One printed result. *)
Record hit := {
  hit_number : Z;
  hit_score : Q;
  hit_difficulty : Z;
  hit_text : str;
  hit_options : value;
}.

(** [numpy.argsort]: positions sorted by ascending score.  The order among
    equal scores is unspecified for the default algorithm; here earlier
    positions come first. *)
Fixpoint argsort_insert (sim : list Q) (i : nat) (sorted : list nat) : list nat :=
  match sorted with
  | [] => [i]
  | j :: rest =>
      if Qle_bool (default 0%Q (sim !! i)) (default 0%Q (sim !! j))
      then i :: sorted
      else j :: argsort_insert sim i rest
  end.

Definition argsort (sim : list Q) : list nat :=
  foldr (argsort_insert sim) [] (seq 0 (length sim)).

(** The loop over [sorted_indices].  A position outside the table cannot
    come out of [argsort]; such a step is skipped. *)
Fixpoint scan_results (df : list row) (cosine_sim : list Q) (target_count : Z)
    (sorted_indices : list nat) (count : Z) (seen_text : gset str) : list hit :=
  match sorted_indices with
  | [] => []
  | idx :: rest =>
      if (count >=? target_count)%Z then []
      else
        match cosine_sim !! idx, df !! idx with
        | Some score, Some x =>
            if negb (Qle_bool score 0.05%Q) then
              let q_text := question_text x in
              if decide (q_text ∈ seen_text)
              then scan_results df cosine_sim target_count rest count seen_text
              else
                {| hit_number := (count + 1)%Z;
                   hit_score := score;
                   hit_difficulty := difficulty_score x;
                   hit_text := q_text;
                   hit_options := options_text x |}
                :: scan_results df cosine_sim target_count rest (count + 1)%Z
                     ({[q_text]} ∪ seen_text)
            else scan_results df cosine_sim target_count rest count seen_text
        | _, _ => scan_results df cosine_sim target_count rest count seen_text
        end
  end.

(** The results printed for one requirement typed by the user. *)
Definition query (df : list row) (lang : str) (sw : stop_words)
    (corpus : list str) (target_count : Z) (req : str) : list hit :=
  let processed_req := normalize_for_dedup (VStr req) lang in
  let cosine_sim :=
    map (sk_cosine sw corpus processed_req) (seq 0 (length corpus)) in
  let sorted_indices := rev (argsort cosine_sim) in
  scan_results df cosine_sim target_count sorted_indices 0%Z ∅.

(** What one printed list must satisfy for a limit of [top_k] results. *)
Definition well_ranked (top_k : nat) (res : list hit) : Prop :=
  (length res <= top_k)%nat
  /\ Forall (fun h => (0.05 < hit_score h)%Q) res
  /\ NoDup (map hit_text res).

(** How a run of [generate_survey] ends. *)
Inductive ending :=
| NotEnoughData     (* the message is printed and the function returns *)
| SysExit (code : Z) (* the user typed [exit] *)
| InputClosed.      (* [input] met the end of the input *)

(** The [while True] loop, fed with the lines the user types. *)
Fixpoint query_loop (df : list row) (lang : str) (sw : stop_words)
    (corpus : list str) (target_count : Z) (lines : list str)
  : list (list hit) * ending :=
  match lines with
  | [] => ([], InputClosed)
  | req :: lines' =>
      if decide (lower (strip req) = u "exit") then ([], SysExit 0)
      else if decide (strip req = []) then
        query_loop df lang sw corpus target_count lines'
      else
        let '(printed, e) := query_loop df lang sw corpus target_count lines' in
        (query df lang sw corpus target_count req :: printed, e)
  end.

(** The [stop_words] of the vectorizer for each language. *)
Definition survey_stop_words (lang : str) : stop_words :=
  if decide (lang = u "en") then StopEnglish else StopList zh_stops.

Definition generate_survey (df : list row) (lang : str) (target_count : Z)
    (lines : list str) : list (list hit) * ending :=
  let model_input := map dedup_key df in
  match fit_transform (survey_stop_words lang) model_input with
  | ValueError => ([], NotEnoughData)
  | Fitted sw corpus => query_loop df lang sw corpus target_count lines
  end.

End WithLibraries.

(** The similarity at a position, as [argsort] reads it. *)
Definition score_at (sim : list Q) (i : nat) : Q := default 0%Q (sim !! i).

(** The line that ends the query loop. *)
Definition is_exit `{Unicode} (req : str) : Prop := lower (strip req) = u "exit".

(** [h] may be printed before [h'] in a ranked list. *)
Definition hit_ge (h h' : hit) : Prop := (hit_score h' <= hit_score h)%Q.

(** A hit shows the row at some position of the table, with the
    similarity computed for that position. *)
Definition hit_of_row (df : list row) (cosine_sim : list Q) (h : hit) : Prop :=
  exists idx x,
    df !! idx = Some x /\ cosine_sim !! idx = Some (hit_score h)
    /\ hit_text h = question_text x
    /\ hit_difficulty h = difficulty_score x
    /\ hit_options h = options_text x.

End Part4.

(** ** survey_database.py *)

Module Survey_database.

(** A question of the store.  [usage_count] is [None] when the key is
    absent from the JSON object; [difficulty] is [None] when it is absent
    or not a number. *)
Record question := {
  id : Z;
  question_text : str;
  question_type : str;
  options : value;
  difficulty : option Q;
  category : str;
  tags : list str;
  usage_count : option Z;
}.

Record questionnaire := {
  qn_id : Z;
  qn_title : str;
  question_ids : list Z;
}.

(** [self.data]; writing it back to the file is not modelled. *)
Record data := {
  questions : list question;
  questionnaires : list questionnaire;
}.

(** Equality of two question objects, field by field. *)
#[global] Instance Q_eq_dec : EqDecision Q.
Proof. solve_decision. Defined.

#[global] Instance question_eq_dec : EqDecision question.
Proof. solve_decision. Defined.

Definition get_all_questions (d : data) : list question := questions d.

(** The first question with this id, with its position in the list. *)
Definition find_question (question_id : Z) (d : data) : option (nat * question) :=
  list_find (fun q => id q = question_id) (questions d).

Definition find_questionnaire (questionnaire_id : Z) (d : data)
  : option (nat * questionnaire) :=
  list_find (fun qn => qn_id qn = questionnaire_id) (questionnaires d).

Definition get_question_by_id (question_id : Z) (d : data) : option question :=
  snd <$> find_question question_id d.

Definition get_questionnaire_by_id (questionnaire_id : Z) (d : data)
  : option questionnaire :=
  snd <$> find_questionnaire questionnaire_id d.

Definition get_questions_by_category (cat : str) (d : data) : list question :=
  List.filter (fun q => bool_decide (category q = cat)) (questions d).

(** [max([q["id"] for q in questions], default=0) + 1] *)
Definition next_id (ids : list Z) : Z :=
  match ids with
  | [] => 1
  | i :: ids' => (foldl Z.max i ids' + 1)%Z
  end.

(** The dict handed to [add_question]: a new object, or the object that
    already stands at a position of the list of questions (one returned by
    [get_question_by_id], say). *)
Inductive question_arg :=
| NewDict (question_data : question)
| StoredAt (i : nat).

(** [question_data["id"] = new_id] and [question_data["usage_count"] = 0] *)
Definition stamp (new_id : Z) (q : question) : question :=
  {| id := new_id;
     question_text := question_text q;
     question_type := question_type q;
     options := options q;
     difficulty := difficulty q;
     category := category q;
     tags := tags q;
     usage_count := Some 0%Z |}.

(** The two assignments write into the object handed in, and that same
    object is appended.  A new object only grows the list; an object that
    is already stored is renumbered where it stands and then stands in the
    list a second time (the list below holds its value at both places).  A
    position outside the list denotes no object: no call corresponds to
    it, and the store is returned as it is. *)
Definition add_question (question_data : question_arg) (d : data) : Z * data :=
  let new_id := next_id (map id (questions d)) in
  match question_data with
  | NewDict q =>
      (new_id, {| questions := questions d ++ [stamp new_id q];
                  questionnaires := questionnaires d |})
  | StoredAt i =>
      match questions d !! i with
      | Some q =>
          (new_id,
           {| questions := <[i := stamp new_id q]> (questions d)
                           ++ [stamp new_id q];
              questionnaires := questionnaires d |})
      | None => (new_id, d)
      end
  end.

Definition append_question_id (question_id : Z) (qn : questionnaire) : questionnaire :=
  {| qn_id := qn_id qn;
     qn_title := qn_title qn;
     question_ids := question_ids qn ++ [question_id] |}.

(** [question["usage_count"] = question.get("usage_count", 0) + 1] *)
Definition bump_usage (q : question) : question :=
  {| id := id q;
     question_text := question_text q;
     question_type := question_type q;
     options := options q;
     difficulty := difficulty q;
     category := category q;
     tags := tags q;
     usage_count := Some (default 0 (usage_count q) + 1)%Z |}.

(** The two objects found are the ones stored in the lists, so they are
    updated in place, at their positions. *)
Definition add_question_to_questionnaire (questionnaire_id question_id : Z)
    (d : data) : bool * data :=
  match find_questionnaire questionnaire_id d, find_question question_id d with
  | Some (i, qn), Some (j, q) =>
      if decide (question_id ∈ question_ids qn) then (true, d)
      else
        (true,
         {| questions := <[j := bump_usage q]> (questions d);
            questionnaires :=
              <[i := append_question_id question_id qn]> (questionnaires d) |})
  | _, _ => (false, d)
  end.

(** [counts[k] = counts.get(k, 0) + 1] *)
Definition count_key (k : str) (counts : gmap str nat) : gmap str nat :=
  <[k := S (default 0%nat (counts !! k))]> counts.

(** The loop of [get_statistics] that counts the questions by type. *)
Definition question_types_distribution (d : data) : gmap str nat :=
  foldl (fun question_types q => count_key (question_type q) question_types)
        ∅ (questions d).

Definition total_questions (d : data) : nat := length (questions d).

(** One counting loop, for any key read from the questions, started from
    given counts; and the questions that have a given key. *)
Definition count_all (key : question -> str) (counts : gmap str nat)
    (qs : list question) : gmap str nat :=
  foldl (fun counts q => count_key (key q) counts) counts qs.

Definition with_key (key : question -> str) (c : str) (qs : list question)
  : list question :=
  List.filter (fun q => bool_decide (key q = c)) qs.

(** [sum(counts.values())] *)
Definition sum_values (counts : gmap str nat) : nat :=
  map_fold (fun _ n acc => (n + acc)%nat) 0%nat counts.

End Survey_database.

(** ** convert_data.py *)

Module Convert_data.

Import Survey_database.

(** An item of the input array; [None] is a missing key. *)
Record raw_item := {
  in_question_text : option str;
  in_question_type : option str;
  in_options_text : value;
  in_category : option str;
  in_language : option str;
}.

(** The question built for the item at position [i]. *)
Definition convert_item (i : nat) (item : raw_item) : question :=
  {| id := (Z.of_nat i + 1)%Z;
     question_text := default [] (in_question_text item);
     question_type := default (u "text") (in_question_type item);
     options := in_options_text item;
     difficulty := Some 2%Q;
     category := default (u "general") (in_category item);
     tags := [default (u "general") (in_category item);
              default (u "en") (in_language item)];
     usage_count := Some 0%Z |}.

Definition converted_data (input_data : list raw_item) : data :=
  {| questions := imap convert_item input_data;
     questionnaires := [] |}.

(** The loop printing the first three questions; [None] is the
    [IndexError] of a shorter list. *)
Definition show_samples (d : data) : option (list str) :=
  mapM (fun i => question_text <$> questions d !! i) [0; 1; 2]%nat.

(** The data written to the output file, and the value returned: the
    file is written before the samples are shown, and the [except] clause
    turns the exception of the samples into [False]. *)
Definition convert_question_data (input_data : list raw_item) : data * bool :=
  let converted := converted_data input_data in
  (converted,
   match show_samples converted with
   | Some _ => true
   | None => false
   end).

End Convert_data.

(** ** Q5_v1.py *)

Module Q5_v1.

Import Survey_database.

(** The range U+4E00 to U+9FFF. *)
Definition is_han_9fff (c : N) : bool := in_range 0x4e00 0x9fff c.

Definition is_chinese (text : value) : bool :=
  match text with
  | VStr text => existsb is_han_9fff text
  | _ => false
  end.

(** The [requirements] object of the requirements file, after the defaults
    of [generate_questionnaire] are applied; [req_title] and
    [req_description] are the two top-level keys read for the query text. *)
Record requirements := {
  req_title : str;
  req_description : str;
  question_count : Z;
  categories : list str;
  difficulty_range : list Q;
  language : option str;
  topic : str;
}.

Definition pair := (question * Q)%type.

(** What is selected so far. *)
Record selection := {
  selected_pairs : list pair;
  used_ids : gset Z;
  assigned_cat : gmap Z str;
}.

(** An entry of [ordered_questions]. *)
Record item := {
  item_id : Z;
  item_category : str;
  item_score : Q;
  item_difficulty : option Q;
  item_question_text : str;
  item_options : value;
}.

(** [out_obj]; [by_category] keeps the insertion order of its keys. *)
Record output := {
  question_count_requested : Z;
  question_ids : list Z;
  by_category : list (str * list Z);
  ordered_questions : list item;
}.

Section WithLibraries.
Context {unicode : Unicode} {sklearn : Sklearn}.

(** [None] stands for the exception [fit_transform] raises. *)
Definition tfidf_rank (query : str) (docs : list str) : option (list Q) :=
  match Part4.fit_transform StopEnglish (docs ++ [query]) with
  | Part4.ValueError => None
  | Part4.Fitted sw corpus =>
      Some (map (sk_cosine sw corpus query) (seq 0 (length docs)))
  end.

(** [max(scores) if scores else 0.0] *)
Definition max_score (scores : list Q) : Q :=
  match scores with
  | [] => 0%Q
  | s :: scores' => foldl Qmax s scores'
  end.

(** Normalisation to [0,1]: divide by the maximum when it is positive. *)
Definition normalize_scores (scores : list Q) : list Q :=
  let maxv := max_score scores in
  if negb (Qle_bool maxv 0) then map (fun s => (s / maxv)%Q) scores
  else scores.

Definition keyword_score (query : str) (docs : list str) : list Q :=
  let q := strip (lower query) in
  let scores :=
    map (fun d =>
           let dlow := lower d in
           match q with
           | [] => 0%Q
           | _ => inject_Z (Z.of_nat (count q dlow))
           end) docs in
  normalize_scores scores.

Definition language_filter (language : option str) (questions : list question)
  : list question :=
  if decide (language = Some (u "zh")) then
    List.filter (fun q => is_chinese (VStr (question_text q))) questions
  else if decide (language = Some (u "en")) then
    List.filter (fun q => negb (is_chinese (VStr (question_text q)))) questions
  else questions.

Definition category_filter (categories : list str) (questions : list question)
  : list question :=
  match categories with
  | [] => questions
  | _ => List.filter (fun q => bool_decide (lower (category q) ∈ categories))
           questions
  end.

Definition difficulty_filter (difficulty_range : list Q)
    (questions : list question) : list question :=
  match difficulty_range with
  | lo :: hi :: _ =>
      List.filter (fun q =>
                     match difficulty q with
                     | Some d => Qle_bool lo d && Qle_bool d hi
                     | None => false
                     end) questions
  | _ => questions
  end.

Definition joined_tags (q : question) : str :=
  join (u " ") (map lower (tags q)).

(** The scoring used when the language is not [en]. *)
Definition text_tag_scores (topic : str) (questions : list question) : list Q :=
  let qtoken := lower topic in
  let nonempty := match qtoken with [] => false | _ => true end in
  let scores :=
    map (fun q =>
           let s := 0%Q in
           let text := lower (question_text q) in
           let tags := joined_tags q in
           let s := if nonempty && contains qtoken text then (s + 3)%Q else s in
           let s := if nonempty && contains qtoken tags then (s + 2)%Q else s in
           s) questions in
  normalize_scores scores.

(** [pairs.sort(key=lambda x: x[1], reverse=True)]: Python's sort is
    stable, also with [reverse=True]. *)
Fixpoint insert_desc (p : pair) (sorted : list pair) : list pair :=
  match sorted with
  | [] => [p]
  | p' :: rest =>
      if Qle_bool p'.2 p.2 then p :: sorted else p' :: insert_desc p rest
  end.

Definition sort_desc (pairs : list pair) : list pair :=
  foldr insert_desc [] pairs.

(** [p] may stand before [p'] in a list sorted by descending score. *)
Definition score_ge (p p' : pair) : Prop := (p'.2 <= p.2)%Q.

(** The candidates whose score equals [s]. *)
Definition with_score (s : Q) (pairs : list pair) : list pair :=
  List.filter (fun p => Qeq_bool p.2 s) pairs.

(** The ranking phase: the filtered questions paired with their scores,
    best first. *)
Definition rank (req : requirements) (questions : list question) : list pair :=
  let docs := map question_text questions in
  let query_text :=
    join (u " ") [req_title req; req_description req] ++ u " " ++ topic req in
  let scores :=
    if decide (language req = Some (u "en")) then
      match tfidf_rank query_text docs with
      | Some scores => scores
      | None => keyword_score (topic req) docs
      end
    else text_tag_scores (topic req) questions in
  let pairs := zip questions scores in
  sort_desc pairs.

(** [cat_map.setdefault(cat, []).append(p)] for every pair. *)
Definition build_cat_map (pairs : list pair) : gmap str (list pair) :=
  foldl (fun cat_map p =>
           let cat := lower (category p.1) in
           <[cat := default [] (cat_map !! cat) ++ [p]]> cat_map)
        ∅ pairs.

Definition select (p : pair) (rc : option str) (sel : selection) : selection :=
  {| selected_pairs := selected_pairs sel ++ [p];
     used_ids := {[id p.1]} ∪ used_ids sel;
     assigned_cat := match rc with
                     | Some rc => <[id p.1 := rc]> (assigned_cat sel)
                     | None => assigned_cat sel
                     end |}.

(** One step of the loop picking the top candidate of a requested
    category. *)
Definition cover_category (cat_map : gmap str (list pair)) (sel : selection)
    (rc : str) : selection :=
  match default [] (cat_map !! rc) with
  | chosen :: _ =>
      if decide (id chosen.1 ∈ used_ids sel) then sel
      else select chosen (Some rc) sel
  | [] => sel
  end.

Definition synonyms : gmap str (list str) :=
  <[u "recommendation" := [u "recommend"; u "recommendation"; u "nps"]]>
  (<[u "satisfaction" := [u "satisfaction"; u "satisfied"; u "satisfy"]]>
  (<[u "usage" := [u "usage"; u "frequency"; u "behavior"]]> ∅)).

Definition mentions (rc_tokens : list str) (q : question) : bool :=
  let qtext := lower (question_text q) in
  let qtags := joined_tags q in
  existsb (fun tok => contains tok qtext || contains tok qtags) rc_tokens.

(** One step of the loop over the requested categories that have no
    candidate: the first unused question of the whole bank that mentions
    the category. *)
Definition cover_missing (full_bank : list question) (sel : selection)
    (rc : str) : selection :=
  let rc_tokens := default [rc] (synonyms !! rc) in
  match List.find (fun q => mentions rc_tokens q
                            && negb (bool_decide (id q ∈ used_ids sel)))
          full_bank with
  | Some q => select (q, 0.5%Q) (Some rc) sel
  | None => sel
  end.

(** The ids of the questions selected so far, in order. *)
Definition selected_ids (sel : selection) : list Z :=
  map (fun p : pair => id p.1) (selected_pairs sel).

(** The ids of the ranked candidates that are still unused. *)
Definition fresh_ids (pairs : list pair) (sel : selection) : gset Z :=
  list_to_set (map (fun p : pair => id p.1) pairs) ∖ used_ids sel.

(** The set [used_ids] holds exactly the ids selected, each once. *)
Definition consistent (sel : selection) : Prop :=
  NoDup (selected_ids sel) /\ used_ids sel = list_to_set (selected_ids sel).

(** The loop that fills the remaining slots by overall ranking. *)
Fixpoint fill_by_rank (qcount : Z) (pairs : list pair) (sel : selection)
  : selection :=
  match pairs with
  | [] => sel
  | p :: rest =>
      if (Z.of_nat (length (selected_pairs sel)) >=? qcount)%Z then sel
      else if decide (id p.1 ∈ used_ids sel) then fill_by_rank qcount rest sel
      else fill_by_rank qcount rest (select p None sel)
  end.

(** The two passes that pin one question per requested category. *)
Definition pin_categories (req : requirements) (full_bank : list question)
    (pairs : list pair) : selection :=
  let req_cats := map lower (categories req) in
  let cat_map := build_cat_map pairs in
  let sel := {| selected_pairs := []; used_ids := ∅; assigned_cat := ∅ |} in
  let sel := foldl (cover_category cat_map) sel req_cats in
  let missing :=
    List.filter (fun rc => match default [] (cat_map !! rc) with
                           | [] => true
                           | _ => false
                           end) req_cats in
  foldl (cover_missing full_bank) sel missing.

(** The whole selection phase. *)
Definition select_pairs (req : requirements) (full_bank : list question)
    (pairs : list pair) : selection :=
  fill_by_rank (question_count req) pairs (pin_categories req full_bank pairs).

(** The loop over [fallback] that extends the local list [selected]. *)
Fixpoint append_fallback (qcount : Z) (fallback : list question)
    (selected : list question) : list question :=
  match fallback with
  | [] => selected
  | q :: rest =>
      if (Z.of_nat (length selected) >=? qcount)%Z then selected
      else if decide (q ∈ selected) then append_fallback qcount rest selected
      else append_fallback qcount rest (selected ++ [q])
  end.

(** The local list [selected] at the end of the relaxed pass.  Nothing
    after this point of [generate_questionnaire] reads it. *)
Definition selected_after_fallback (req : requirements)
    (full_bank : list question) (sel : selection) : list question :=
  let selected := map fst (selected_pairs sel) in
  if (Z.of_nat (length selected) <? question_count req)%Z then
    append_fallback (question_count req)
      (language_filter (language req) full_bank) selected
  else selected.

(** The pool of the relaxed pass: the whole bank, filtered by language
    only. *)
Definition reachable_pool (req : requirements) (db : data) : list question :=
  language_filter (language req) (get_all_questions db).

(** [by_category.setdefault(cat, []).append(qid)] *)
Fixpoint setdefault_append (cat : str) (qid : Z) (d : list (str * list Z))
  : list (str * list Z) :=
  match d with
  | [] => [(cat, [qid])]
  | (k, ids) :: d' =>
      if decide (k = cat) then (k, ids ++ [qid]) :: d'
      else (k, ids) :: setdefault_append cat qid d'
  end.

Definition make_item (assigned_cat : gmap Z str) (p : pair) : item :=
  let qid := id p.1 in
  let out_cat := default (category p.1) (assigned_cat !! qid) in
  {| item_id := qid;
     item_category := title out_cat;
     item_score := p.2;
     item_difficulty := difficulty p.1;
     item_question_text := question_text p.1;
     item_options := options p.1 |}.

Definition group_key (it : item) : str :=
  match item_category it with
  | [] => u "Uncategorized"
  | cat => cat
  end.

(** The filtering and the ranking phase. *)
Definition candidates (req : requirements) (db : data) : list pair :=
  let categories := map lower (categories req) in
  let questions := get_all_questions db in
  let questions := language_filter (language req) questions in
  let questions := category_filter categories questions in
  let questions := difficulty_filter (difficulty_range req) questions in
  rank req questions.

Definition generate_questionnaire (req : requirements) (db : data) : output :=
  let qcount := question_count req in
  let pairs := candidates req db in
  let sel := select_pairs req (get_all_questions db) pairs in
  let ordered_questions := map (make_item (assigned_cat sel)) (selected_pairs sel) in
  {| question_count_requested := qcount;
     question_ids := map item_id ordered_questions;
     by_category :=
       foldl (fun d it => setdefault_append (group_key it) (item_id it) d)
             [] ordered_questions;
     ordered_questions := ordered_questions |}.

End WithLibraries.

(** The class of separators of [parse_options]: slash, semicolon, comma. *)
Definition is_option_sep (c : N) : bool :=
  (c =? 0x2f) || (c =? 0x3b) || (c =? 0x2c).

Definition parse_options (options_raw : str) : list str :=
  let parts := split_on is_option_sep [] options_raw in
  map strip
    (List.filter (fun p => negb (bool_decide (strip p = []))) parts).

(** The candidates of one category, best first. *)
Definition of_category `{Unicode} (rc : str) (pairs : list pair) : list pair :=
  List.filter (fun p : pair => bool_decide (lower (category p.1) = rc)) pairs.

(** The test of the language filter for one question. *)
Definition language_ok (language : option str) (q : question) : Prop :=
  (language = Some (u "zh") -> is_chinese (VStr (question_text q)) = true)
  /\ (language = Some (u "en") -> is_chinese (VStr (question_text q)) = false).

(** The test of the difficulty filter for one question. *)
Definition difficulty_ok (difficulty_range : list Q) (q : question) : Prop :=
  match difficulty_range with
  | lo :: hi :: _ => exists d, difficulty q = Some d /\ (lo <= d)%Q /\ (d <= hi)%Q
  | _ => True
  end.

End Q5_v1.

(** ** Small implementations of the library interfaces

    They let the model run on concrete inputs.  Tokens are the
    whitespace-separated words; the similarity is the share of the query
    terms found in the document. *)

Module Toy.

Definition nlp : Nlp := {|
  nlp_en := fun text => map word_token (split text);
  jieba_lcut := split;
|}.

Definition terms (sw : stop_words) (doc : str) : list str :=
  List.filter
    (fun w => (2 <=? length w)%nat
              && match sw with
                 | StopEnglish => negb (bool_decide (w ∈ [u "the"; u "is"; u "of"]))
                 | StopList l => negb (bool_decide (w ∈ l))
                 end)
    (split (map ascii_lower_char doc)).

Definition overlap (sw : stop_words) (corpus : list str) (query : str)
    (i : nat) : Q :=
  let qt := terms sw query in
  let dt := terms sw (default [] (corpus !! i)) in
  match qt with
  | [] => 0%Q
  | _ =>
      inject_Z (Z.of_nat
                  (length (List.filter (fun w => bool_decide (w ∈ dt)) qt)))
      / inject_Z (Z.of_nat (length qt))
  end.

Definition sklearn : Sklearn := {|
  sk_terms := terms;
  sk_cosine := overlap;
|}.

(** A question of the store. *)
Definition stored_question (i : Z) (text cat : string) (used : Z)
  : Survey_database.question :=
  {| Survey_database.id := i;
     Survey_database.question_text := u text;
     Survey_database.question_type := u "single_choice";
     Survey_database.options := VNone;
     Survey_database.difficulty := Some 2%Q;
     Survey_database.category := u cat;
     Survey_database.tags := [u cat; u "en"];
     Survey_database.usage_count := Some used |}.

(** A store with one questionnaire that already links question 7. *)
Definition linked_store : Survey_database.data :=
  {| Survey_database.questions :=
       [stored_question 7 "How satisfied are you?" "satisfaction" 1;
        stored_question 8 "Would you recommend us?" "recommendation" 0];
     Survey_database.questionnaires :=
       [{| Survey_database.qn_id := 1;
           Survey_database.qn_title := u "Guests";
           Survey_database.question_ids := [7%Z] |}] |}.

(** A bank with one question on satisfaction and two on other subjects. *)
Definition mixed_store : Survey_database.data :=
  {| Survey_database.questions :=
       [stored_question 1 "How satisfied are you with the room?" "Satisfaction" 0;
        stored_question 2 "How often do you travel?" "Usage" 0;
        stored_question 3 "Would you recommend the hotel?" "Recommendation" 0];
     Survey_database.questionnaires := [] |}.

(** A bank with three questions on satisfaction. *)
Definition satisfaction_store : Survey_database.data :=
  {| Survey_database.questions :=
       [stored_question 1 "How satisfied are you with the room?" "Satisfaction" 0;
        stored_question 2 "How satisfied are you with the staff?" "Satisfaction" 0;
        stored_question 3 "How satisfied are you with the food?" "Satisfaction" 0];
     Survey_database.questionnaires := [] |}.

(** Requirements on the topic [hotel]. *)
Definition hotel_requirements (count : Z) (cats : list string)
    (lang : option string) : Q5_v1.requirements :=
  {| Q5_v1.req_title := [];
     Q5_v1.req_description := [];
     Q5_v1.question_count := count;
     Q5_v1.categories := map u cats;
     Q5_v1.difficulty_range := [];
     Q5_v1.language := u <$> lang;
     Q5_v1.topic := u "hotel" |}.

(** A row of the processed table with the given text and key. *)
Definition doc_row (text key : string) : Part4.row :=
  {| Part4.question_text := u text;
     Part4.question_type := VStr (u "rating");
     Part4.options_text := VStr [];
     Part4.detected_lang := u "en";
     Part4.dedup_key := u key;
     Part4.difficulty_score := 1 |}.

End Toy.

(** * Properties *)

(** ** Strings *)

Section Strings.

Lemma in_range_spec lo hi c : in_range lo hi c = true <-> lo <= c <= hi.
Proof.
  unfold in_range. rewrite andb_true_iff, !N.leb_le. tauto.
Qed.

Lemma lstrip_suffix s : lstrip s `suffix_of` s.
Proof.
  induction s as [|c s IH]; simpl; [done|].
  destruct (isspace c); [by apply suffix_cons_r | done].
Qed.

Lemma rstrip_prefix s : rstrip s `prefix_of` s.
Proof.
  unfold rstrip. destruct (lstrip_suffix (rev s)) as [k Hk].
  exists (rev k). apply (f_equal (@rev N)) in Hk.
  rewrite rev_involutive, rev_app_distr in Hk. done.
Qed.

Lemma lstrip_not_space c s : isspace c = false -> lstrip (c :: s) = c :: s.
Proof. intros Hc. simpl. by rewrite Hc. Qed.

Lemma suffix_elem {A} (l k : list A) x : l `suffix_of` k -> x ∈ l -> x ∈ k.
Proof. intros [pre ->] Hx. apply elem_of_app. by right. Qed.

Lemma prefix_elem {A} (l k : list A) x : l `prefix_of` k -> x ∈ l -> x ∈ k.
Proof. intros [post ->] Hx. apply elem_of_app. by left. Qed.

Lemma strip_elem s x : x ∈ strip s -> x ∈ s.
Proof.
  intros Hx. unfold strip in Hx.
  eapply suffix_elem; [apply lstrip_suffix|].
  eapply prefix_elem; [apply rstrip_prefix|done].
Qed.

End Strings.

(** ** Part4.py: cleaning, language, difficulty *)

Section Part4_text.
Context {unicode : Unicode}.
Import Part4.

Lemma start_char_not_space c : is_start_char c = true -> isspace c = false.
Proof.
  unfold is_start_char, isspace. rewrite !orb_true_iff, !in_range_spec.
  intros Hc. rewrite !orb_false_iff.
  repeat split; unfold in_range;
    first [ apply N.eqb_neq; lia
          | apply andb_false_iff;
            rewrite !N.leb_gt; lia ].
Qed.

Lemma span_digits_app s ds rest : span_digits s = (ds, rest) -> s = ds ++ rest.
Proof.
  revert ds rest. induction s as [|c s IH]; intros ds rest; simpl.
  - by intros [= <- <-].
  - destruct (isdecimal c).
    + destruct (span_digits s) as [ds' rest'] eqn:E.
      intros [= <- <-]. simpl. f_equal. by apply IH.
    + by intros [= <- <-].
Qed.

Lemma sub_ask_suffix s : sub_ask s `suffix_of` s.
Proof.
  unfold sub_ask. pose proof (lstrip_suffix s) as Hs.
  destruct (lstrip s) as [|a [|b [|k [|w rest]]]]; try done.
  destruct (_ && _); [|done].
  etrans; [apply lstrip_suffix|].
  etrans; [|exact Hs].
  do 4 apply suffix_cons_r. done.
Qed.

Lemma sub_enum_suffix s : sub_enum s `suffix_of` s.
Proof.
  unfold sub_enum. pose proof (lstrip_suffix s) as Hs.
  set (t1 := match lstrip s with
             | [] => lstrip s
             | c :: r => if ci_q c then lstrip r else lstrip s
             end).
  assert (Ht1 : t1 `suffix_of` s).
  { subst t1. destruct (lstrip s) as [|c r]; [done|].
    destruct (ci_q c); [|done].
    etrans; [apply lstrip_suffix|]. etrans; [|exact Hs].
    by apply suffix_cons_r. }
  destruct (span_digits t1) as [ds rest] eqn:E.
  apply span_digits_app in E.
  destruct ds as [|d ds]; [done|]. destruct rest as [|c rest]; [done|].
  destruct (is_sep c); [|done].
  etrans; [apply lstrip_suffix|]. etrans; [|exact Ht1].
  rewrite E. apply suffix_app_r. by apply suffix_cons_r.
Qed.

Lemma search_from_Some cls t r :
  search_from cls t = Some r ->
  exists pre c rest, t = pre ++ c :: rest /\ r = c :: rest
    /\ cls c = true /\ Forall (fun x => cls x = false) pre.
Proof.
  revert r. induction t as [|c t IH]; intros r; simpl; [done|].
  destruct (cls c) eqn:Hc.
  - intros [= <-]. by exists [], c, t.
  - intros Hr. destruct (IH _ Hr) as (pre & c' & rest & -> & -> & Hc' & Hpre).
    exists (c :: pre), c', rest. repeat split; [done|]. by constructor.
Qed.

Lemma search_from_None cls t :
  search_from cls t = None <-> Forall (fun x => cls x = false) t.
Proof.
  induction t as [|c t IH]; simpl.
  - split; [by constructor|done].
  - destruct (cls c) eqn:Hc.
    + split; [done|]. intros Hf. inversion Hf; congruence.
    + rewrite IH. split; [by constructor | by inversion 1].
Qed.

Lemma search_from_first cls pre c rest :
  Forall (fun x => cls x = false) pre -> cls c = true ->
  search_from cls (pre ++ c :: rest) = Some (c :: rest).
Proof.
  induction 1 as [|x pre Hx _ IH]; intros Hc; simpl.
  - by rewrite Hc.
  - rewrite Hx. by apply IH.
Qed.

(** Every character of the cleaned text comes from the input. *)
Lemma clean_question_text_elem s x :
  x ∈ clean_question_text (VStr s) -> x ∈ s.
Proof.
  unfold clean_question_text. intros Hx. apply strip_elem in Hx.
  assert (Ht : x ∈ sub_enum (sub_ask s)).
  { destruct (search_from _ _) as [r|] eqn:E; [|done].
    apply search_from_Some in E as (pre & c & rest & -> & -> & _).
    apply elem_of_app. by right. }
  eapply suffix_elem; [apply sub_ask_suffix|].
  eapply suffix_elem; [apply sub_enum_suffix|done].
Qed.

(** Without a letter there is no [ask] to remove. *)
Lemma sub_ask_no_start s :
  Forall (fun c => is_start_char c = false) s -> sub_ask s = s.
Proof.
  intros Hs. unfold sub_ask. pose proof (lstrip_suffix s) as Hsuf.
  destruct (lstrip s) as [|a [|b [|k [|w rest]]]]; try done.
  destruct (ci_a a) eqn:Ha; [|done]. exfalso.
  assert (Hin : a ∈ s) by (eapply suffix_elem; [exact Hsuf|left]).
  rewrite Forall_forall in Hs.
  specialize (Hs _ Hin). unfold ci_a in Ha. unfold is_start_char, in_range in Hs.
  apply orb_true_iff in Ha as [Ha|Ha]; apply N.eqb_eq in Ha; subst a;
    vm_compute in Hs; done.
Qed.

Lemma lstrip_cut s : exists ws, s = ws ++ lstrip s /\ all_space ws.
Proof.
  induction s as [|c s (ws & Hs & Hws)]; simpl.
  - exists []. split; [done|constructor].
  - destruct (isspace c) eqn:Hc.
    + exists (c :: ws). split; [simpl; by f_equal | by constructor].
    + exists []. split; [done|constructor].
Qed.

Lemma lstrip_spaces ws t : all_space ws -> lstrip (ws ++ t) = lstrip t.
Proof. induction 1 as [|c ws Hc _ IH]; simpl; [done|]. by rewrite Hc. Qed.

Lemma lstrip_unspaced s : starts_unspaced (lstrip s).
Proof.
  unfold starts_unspaced. induction s as [|c s IH]; simpl; [done|].
  destruct (isspace c) eqn:Hc; [done|]. simpl. by rewrite Hc.
Qed.

Lemma ci_a_not_space c : ci_a c = true -> isspace c = false.
Proof.
  unfold ci_a. intros [Hc|Hc]%orb_true_iff; apply N.eqb_eq in Hc; by subst c.
Qed.

Lemma ci_q_not_space c : ci_q c = true -> isspace c = false.
Proof.
  unfold ci_q. intros [Hc|Hc]%orb_true_iff; apply N.eqb_eq in Hc; by subst c.
Qed.

Lemma span_digits_all s ds rest :
  span_digits s = (ds, rest) -> Forall (fun d => isdecimal d = true) ds.
Proof.
  revert ds rest. induction s as [|c s IH]; intros ds rest; simpl.
  - intros [= <- <-]. constructor.
  - destruct (isdecimal c) eqn:Hc.
    + destruct (span_digits s) as [ds' rest'] eqn:E.
      intros [= <- <-]. constructor; [done|]. by eapply IH.
    + intros [= <- <-]. constructor.
Qed.

Lemma span_digits_stop ds sep rest :
  Forall (fun d => isdecimal d = true) ds -> isdecimal sep = false ->
  span_digits (ds ++ sep :: rest) = (ds, sep :: rest).
Proof.
  intros Hds Hsep. induction Hds as [|d ds Hd _ IH]; simpl.
  - by rewrite Hsep.
  - by rewrite Hd, IH.
Qed.

(** What [sub_ask] removes is a marker, and a marker is always removed. *)
Lemma sub_ask_marker s : without_prefix ask_marker s (sub_ask s).
Proof.
  unfold sub_ask. destruct (lstrip_cut s) as (ws & Hs & Hws).
  destruct (lstrip s) as [|a [|b [|k [|w rest]]]]; try by left.
  destruct (ci_a a && ci_s b && ci_k k && isspace w) eqn:Hm; [|by left].
  apply andb_true_iff in Hm as [Hm Hw]. apply andb_true_iff in Hm as [Hm Hk].
  apply andb_true_iff in Hm as [Ha Hb].
  destruct (lstrip_cut rest) as (sp & Hrest & Hsp).
  right. exists (ws ++ a :: b :: k :: w :: sp). split.
  - exists ws, a, b, k, (w :: sp). repeat split; try done. by constructor.
  - etrans; [exact Hs|]. rewrite <- app_assoc. simpl.
    do 5 f_equal. exact Hrest.
Qed.

Lemma sub_ask_strips p t :
  ask_marker p -> starts_unspaced t -> sub_ask (p ++ t) = t.
Proof.
  intros (ws & a & b & k & sp & -> & Hws & Ha & Hb & Hk & Hne & Hsp) Ht.
  destruct sp as [|w sp]; [done|]. apply Forall_cons in Hsp as [Hw Hsp].
  unfold sub_ask. rewrite <- app_assoc, (lstrip_spaces _ _ Hws). simpl.
  rewrite (ci_a_not_space _ Ha), Ha, Hb, Hk, Hw. simpl.
  by rewrite (lstrip_spaces _ _ Hsp).
Qed.

(** What [sub_enum] removes is an enumeration prefix, and such a prefix is
    always removed. *)
Lemma sub_enum_prefix s : without_prefix enum_prefix s (sub_enum s).
Proof.
  unfold sub_enum. destruct (lstrip_cut s) as (ws & Hs & Hws).
  set (t1 := match lstrip s with
             | [] => lstrip s
             | c :: r => if ci_q c then lstrip r else lstrip s
             end).
  assert (Hq : exists q, lstrip s = q ++ t1
                 /\ (q = [] \/ exists c qs, q = c :: qs /\ ci_q c = true
                                            /\ all_space qs)).
  { subst t1. destruct (lstrip s) as [|c r]; [exists []; split; [done|by left]|].
    destruct (ci_q c) eqn:Hc; [|exists []; split; [done|by left]].
    destruct (lstrip_cut r) as (qs & Hr & Hqs).
    exists (c :: qs). split; [simpl; by f_equal|]. right. by exists c, qs. }
  destruct Hq as (q & Hq & Hqshape).
  destruct (span_digits t1) as [ds rest] eqn:E.
  pose proof (span_digits_all _ _ _ E) as Hds.
  apply span_digits_app in E.
  destruct ds as [|d ds]; [by left|]. destruct rest as [|sep rest]; [by left|].
  destruct (is_sep sep) eqn:Hsep; [|by left].
  destruct (lstrip_cut rest) as (sp & Hrest & Hsp).
  right. exists (ws ++ q ++ (d :: ds) ++ sep :: sp). split.
  - exists ws, q, (d :: ds), sep, sp. repeat split; done.
  - clearbody t1. etrans; [exact Hs|]. rewrite Hq, E.
    etrans; [|by rewrite <- !app_assoc].
    do 3 f_equal. simpl. do 2 f_equal. exact Hrest.
Qed.

Lemma sub_enum_strips p t :
  digits_apart -> enum_prefix p -> starts_unspaced t -> sub_enum (p ++ t) = t.
Proof.
  intros Hapart (ws & q & ds & sep & sp & -> & Hws & Hq & Hne & Hds & Hsep & Hsp) Ht.
  destruct ds as [|d ds]; [done|].
  assert (Hd : isspace d = false /\ ci_q d = false).
  { apply Forall_cons in Hds as [Hd _]. destruct (Hapart d Hd) as (? & ? & ?).
    done. }
  assert (Hsepd : isdecimal sep = false).
  { destruct (isdecimal sep) eqn:Hc; [|done].
    destruct (Hapart sep Hc) as (_ & _ & Hno). congruence. }
  destruct Hd as [Hdsp Hdq].
  unfold sub_enum. rewrite <- !app_assoc, (lstrip_spaces _ _ Hws).
  assert (Hspan : span_digits (d :: ds ++ sep :: sp ++ t)
                  = (d :: ds, sep :: sp ++ t)).
  { apply (span_digits_stop (d :: ds) sep (sp ++ t) Hds Hsepd). }
  destruct Hq as [->|(c & qs & -> & Hc & Hqs)]; cbn -[span_digits].
  - rewrite Hdsp, Hdq, Hspan, Hsep. by rewrite (lstrip_spaces _ _ Hsp).
  - rewrite (ci_q_not_space _ Hc), Hc, (lstrip_spaces _ _ Hqs).
    cbn -[span_digits].
    rewrite Hdsp, Hspan, Hsep. by rewrite (lstrip_spaces _ _ Hsp).
Qed.

Lemma not_letter_or_cjk_start c :
  is_letter_or_cjk c = false -> is_start_char c = false.
Proof.
  unfold is_letter_or_cjk, is_letter, is_cjk, is_start_char.
  intros Hc. apply orb_false_iff in Hc as [Hl Hc].
  apply orb_false_iff in Hl as [Hl Hu]. rewrite Hl, Hu. simpl.
  unfold in_range in *. apply andb_false_iff.
  apply andb_false_iff in Hc as [Hc|Hc]; [by left|right].
  apply N.leb_gt in Hc. apply N.leb_gt. lia.
Qed.

Lemma early_letter_or_cjk_start c :
  is_letter_or_cjk c = true -> is_late_ideograph c = false ->
  is_start_char c = true.
Proof.
  unfold is_letter_or_cjk, is_letter, is_cjk, is_late_ideograph, is_start_char.
  intros Hc Hlate.
  destruct (in_range 0x61 0x7a c); [done|].
  destruct (in_range 0x41 0x5a c); [done|]. simpl in *.
  unfold in_range in *. apply andb_true_iff in Hc as [Hlo Hhi].
  apply N.leb_le in Hlo, Hhi. apply andb_true_iff. split; [by apply N.leb_le|].
  apply N.leb_le. apply andb_false_iff in Hlate as [Hl|Hl];
    apply N.leb_gt in Hl; lia.
Qed.

End Part4_text.

Section Part4_results.
Context {unicode : Unicode}.
Import Part4.

(** C5 (amended).  A value that is not a string is cleaned to the empty
    string.  For a string, a leading interrogative marker and then a leading
    enumeration prefix are removed: what is removed has that shape, and a
    prefix of that shape is always removed (for the enumeration, with
    tables whose digits are no spaces, no [Q] and no separators).  If the
    input has no letter and no CJK Unified Ideograph (U+4E00..U+9FFF), the
    result is what is left after the enumeration prefix with the
    surrounding whitespace removed, and it has no such character either: it
    need not be empty.  If the stripped text has a first letter or
    ideograph, and that character is not one of U+9FA6..U+9FFF, the result
    is the text from that character on, with the trailing whitespace
    removed. *)
Theorem clean_question_text_cases :
  (forall v, (forall s, v <> VStr s) -> clean_question_text v = [])
  /\ (forall s, without_prefix ask_marker s (sub_ask s)
                /\ without_prefix enum_prefix (sub_ask s) (sub_enum (sub_ask s)))
  /\ (forall p t, ask_marker p -> starts_unspaced t -> sub_ask (p ++ t) = t)
  /\ (digits_apart ->
      forall p t, enum_prefix p -> starts_unspaced t -> sub_enum (p ++ t) = t)
  /\ (forall s,
        Forall (fun c => is_letter_or_cjk c = false) s ->
        clean_question_text (VStr s) = strip (sub_enum s)
        /\ Forall (fun c => is_letter_or_cjk c = false)
             (clean_question_text (VStr s)))
  /\ (forall s pre c rest,
        sub_enum (sub_ask s) = pre ++ c :: rest ->
        Forall (fun x => is_letter_or_cjk x = false) pre ->
        is_letter_or_cjk c = true ->
        is_late_ideograph c = false ->
        clean_question_text (VStr s) = rstrip (c :: rest)).
Proof.
  split; [|split; [|split; [|split; [|split]]]].
  - intros [s| |] Hv; [by destruct (Hv s)|done|done].
  - intros s. split; [apply sub_ask_marker|apply sub_enum_prefix].
  - apply sub_ask_strips.
  - intros Hapart p t. by apply sub_enum_strips.
  - intros s Hs.
    assert (Hstart : Forall (fun c => is_start_char c = false) s).
    { eapply Forall_impl; [exact Hs|]. apply not_letter_or_cjk_start. }
    split.
    + unfold clean_question_text. rewrite (sub_ask_no_start s Hstart).
      destruct (search_from _ _) as [r|] eqn:E; [|done].
      apply search_from_Some in E as (pre & c & rest & Ht & _ & Hc & _).
      assert (Hin : c ∈ s).
      { eapply suffix_elem; [apply sub_enum_suffix|].
        rewrite Ht. apply elem_of_app. right. left. }
      rewrite Forall_forall in Hstart. rewrite (Hstart _ Hin) in Hc. done.
    + rewrite Forall_forall in Hs. apply Forall_forall. intros x Hx.
      apply Hs. by apply clean_question_text_elem.
  - intros s pre c rest Ht Hpre Hc Hlate. unfold clean_question_text.
    assert (Hpre' : Forall (fun x => is_start_char x = false) pre).
    { eapply Forall_impl; [exact Hpre|]. apply not_letter_or_cjk_start. }
    pose proof (early_letter_or_cjk_start c Hc Hlate) as Hc'.
    rewrite Ht, (search_from_first _ _ _ _ Hpre' Hc').
    unfold strip. by rewrite (lstrip_not_space _ _ (start_char_not_space _ Hc')).
Qed.

(** C3.  The difficulty score is defined for every row and lies between 1
    and 5. *)
Theorem calculate_difficulty_range (row : series) :
  (1 <= calculate_difficulty row <= 5)%Z.
Proof. unfold calculate_difficulty. lia. Qed.

End Part4_results.

Section Part4_closed.
Import Part4.
Local Existing Instance ascii_unicode.

Lemma ascii_digits_apart : digits_apart.
Proof.
  intros c Hc. simpl in Hc. apply in_range_spec in Hc.
  unfold isspace, ci_q, is_sep, isspace, in_range.
  repeat split; rewrite ?orb_false_iff; repeat split;
    first [ apply N.eqb_neq; lia
          | apply andb_false_iff; rewrite !N.leb_gt; lia ].
Qed.

(** The parts of C5 on concrete inputs: a value that is no string, an
    enumerated line of punctuation, an enumerated English question, and
    the removal of the two prefixes. *)
Lemma clean_question_text_cases_witness :
  clean_question_text VNone = []
  /\ clean_question_text (VStr (u "12. ?! ")) = u "?!"
  /\ clean_question_text (VStr (u "ask Q1: Hotel room ")) = u "Hotel room"
  /\ sub_ask (u " Ask  " ++ u "Q1: Hotel") = u "Q1: Hotel"
  /\ sub_enum (u "Q1: " ++ u "Hotel") = u "Hotel".
Proof.
  destruct clean_question_text_cases
    as (Hvalue & _ & Hask & Henum & Hnone & Hfirst).
  split; [|split; [|split; [|split]]].
  - apply Hvalue. intros s. discriminate.
  - destruct (Hnone (u "12. ?! ")) as [-> _]; [|reflexivity].
    repeat constructor.
  - rewrite (Hfirst (u "ask Q1: Hotel room ") [] 0x48 (u "otel room "));
      [reflexivity|reflexivity|constructor|reflexivity|reflexivity].
  - apply Hask; [|reflexivity].
    exists [0x20], 0x41, 0x73, 0x6b, [0x20; 0x20].
    split; [reflexivity|]. split; [by repeat constructor|].
    split; [reflexivity|]. split; [reflexivity|]. split; [reflexivity|].
    split; [discriminate|by repeat constructor].
  - apply (Henum ascii_digits_apart); [|reflexivity].
    exists [], [0x51], [0x31], 0x3a, [0x20].
    split; [reflexivity|]. split; [constructor|].
    split; [right; exists 0x51, [];
            split; [reflexivity|split; [reflexivity|constructor]]|].
    split; [discriminate|]. split; [by repeat constructor|].
    split; [reflexivity|by repeat constructor].
Defined.

(** C5 as stated fails: a text without any letter or ideograph is not
    cleaned to the empty string. *)
Lemma clean_question_text_not_empty :
  forallb (fun c => negb (is_letter_or_cjk c)) (u "?!") = true
  /\ clean_question_text (VStr (u "?!")) = u "?!"
  /\ clean_question_text (VStr (u "?!")) <> [].
Proof. split; [reflexivity|]. split; [reflexivity|discriminate]. Qed.

(** Ideographs after U+9FA5 are not taken as the start of the text: they
    are cut away with what precedes the first letter. *)
Example late_ideographs_cut_away :
  clean_question_text (VStr ([0x9fa6; 0x9fa7; 0x20] ++ u "abc")) = u "abc".
Proof. reflexivity. Qed.

(** The clamp matters: an open question of more than thirty words with a
    hard word and seven options adds up to 7. *)
Example calculate_difficulty_clamped :
  calculate_difficulty
    {| s_question_text :=
         VStr (u "why a a a a a a a a a a a a a a a a a a a a a a a a a a a a a a");
       s_question_type := VStr (u "open_ended");
       s_options_text := VStr (u "a/b/c/d/e/f/g");
       s_detected_lang := VStr (u "en") |} = 5%Z.
Proof. reflexivity. Qed.

End Part4_closed.

(** ** Language detection *)

Section Language.
Import Part4 Q5_v1.

Lemma existsb_in_range lo hi s :
  existsb (in_range lo hi) s = true <-> exists c, c ∈ s /\ lo <= c <= hi.
Proof.
  rewrite existsb_exists. split; intros (c & Hin & Hc); exists c.
  - split; [by apply list_elem_of_In | by apply in_range_spec].
  - split; [by apply list_elem_of_In | by apply in_range_spec].
Qed.

(** X8.  [is_chinese] is true exactly for a string with a code point in
    U+4E00..U+9FFF. *)
Lemma is_chinese_spec (text : value) :
  is_chinese text = true
  <-> exists s, text = VStr s /\ exists c, c ∈ s /\ 0x4e00 <= c <= 0x9fff.
Proof.
  destruct text as [s| |]; simpl.
  - unfold is_han_9fff. rewrite existsb_in_range. split.
    + intros Hs. by exists s.
    + by intros (s' & [= <-] & Hs).
  - split; [done | by intros (s' & [=] & _)].
  - split; [done | by intros (s' & [=] & _)].
Qed.

(** [detect_lang] answers [zh] exactly for a text with a code point in
    U+4E00..U+9FA5, and [en] otherwise. *)
Lemma detect_lang_spec (s : str) :
  (detect_lang (VStr s) = u "zh"
   <-> exists c, c ∈ s /\ 0x4e00 <= c <= 0x9fa5)
  /\ (detect_lang (VStr s) = u "zh" \/ detect_lang (VStr s) = u "en").
Proof.
  unfold detect_lang, is_han_9fa5. simpl. rewrite <- existsb_in_range.
  destruct (existsb _ s); split; try tauto; split; done.
Qed.

(** C4.  On the ideograph U+9FA6, inside U+4E00..U+9FFF, the detection of
    [Part4.py] answers [en] while [is_chinese] of [Q5_v1.py] answers
    true. *)
Theorem detect_lang_misses_U9FA6 :
  detect_lang (VStr [0x9fa6]) = u "en" /\ is_chinese (VStr [0x9fa6]) = true.
Proof. split; reflexivity. Qed.

End Language.

(** ** The synonym table *)

Section Synonyms.
Import Part4.

Lemma en_tokens_app doc1 doc2 :
  en_tokens (doc1 ++ doc2) = en_tokens doc1 ++ en_tokens doc2.
Proof.
  induction doc1 as [|t doc1 IH]; simpl; [done|].
  destruct (_ || _); [done|]. simpl. by rewrite IH.
Qed.

(** C10.  The second [hotel] item of the dictionary display wins: [hotel]
    is sent to [property], [inn] and [resort] to [accommodation]; so a
    token with lemma [hotel] and a token with lemma [inn] contribute
    different canonical tokens, wherever they stand in the document. *)
Theorem synonym_map_hotel_last_wins :
  synonym_map !! u "hotel" = Some (u "property")
  /\ synonym_map !! u "inn" = Some (u "accommodation")
  /\ synonym_map !! u "resort" = Some (u "accommodation")
  /\ (forall pre post,
        en_tokens (pre ++ word_token (u "hotel") :: post)
        = en_tokens pre ++ u "property" :: en_tokens post)
  /\ (forall pre post,
        en_tokens (pre ++ word_token (u "inn") :: post)
        = en_tokens pre ++ u "accommodation" :: en_tokens post)
  /\ u "property" <> u "accommodation".
Proof.
  repeat split; try (vm_compute; reflexivity).
  - intros pre post. by rewrite en_tokens_app.
  - intros pre post. by rewrite en_tokens_app.
  - discriminate.
Qed.

End Synonyms.

(** ** De-duplication *)

Section Deduplication.
Context {unicode : Unicode} {nlp : Nlp}.
Import Part4.

Lemma drop_duplicates_go_sublist seen df :
  drop_duplicates_go seen df `sublist_of` df.
Proof.
  revert seen. induction df as [|x df IH]; intros seen; simpl.
  - constructor.
  - destruct (decide _); [by apply sublist_cons | by apply sublist_skip].
Qed.

Lemma drop_duplicates_go_fresh seen df x :
  x ∈ drop_duplicates_go seen df -> dedup_key x ∉ seen.
Proof.
  revert seen. induction df as [|y df IH]; intros seen; simpl.
  - by intros ?%elem_of_nil.
  - destruct (decide _) as [Hy|Hy].
    + apply IH.
    + intros [->|Hin]%elem_of_cons; [done|].
      apply IH in Hin. set_solver.
Qed.

Lemma drop_duplicates_go_NoDup seen df :
  NoDup (map dedup_key (drop_duplicates_go seen df)).
Proof.
  revert seen. induction df as [|x df IH]; intros seen; simpl.
  - constructor.
  - destruct (decide _) as [Hx|Hx]; [apply IH|].
    simpl. constructor; [|apply IH].
    intros (y & Hk & Hy)%list_elem_of_fmap.
    apply drop_duplicates_go_fresh in Hy. set_solver.
Qed.

Lemma drop_duplicates_go_find seen df k :
  k ∉ seen ->
  List.find (has_key k) (drop_duplicates_go seen df) = List.find (has_key k) df.
Proof.
  revert seen. induction df as [|x df IH]; intros seen Hk; simpl; [done|].
  destruct (decide (dedup_key x ∈ seen)) as [Hx|Hx].
  - assert (Hne : has_key k x = false).
    { apply bool_decide_eq_false_2. intros Heq. by subst k. }
    rewrite Hne. by apply IH.
  - simpl. destruct (has_key k x) eqn:Hxk; [done|].
    apply bool_decide_eq_false_1 in Hxk. apply IH. set_solver.
Qed.

Lemma drop_duplicates_go_id seen df :
  NoDup (map dedup_key df) ->
  (forall x, x ∈ df -> dedup_key x ∉ seen) ->
  drop_duplicates_go seen df = df.
Proof.
  revert seen. induction df as [|x df IH]; intros seen Hnd Hseen; simpl; [done|].
  simpl in Hnd. apply NoDup_cons in Hnd as [Hx Hnd].
  rewrite decide_False by (apply Hseen; left).
  f_equal. apply IH; [done|].
  intros y Hy. specialize (Hseen y ltac:(by right)).
  assert (dedup_key y <> dedup_key x).
  { intros Heq. apply Hx. rewrite <- Heq. apply list_elem_of_fmap. by exists y. }
  set_solver.
Qed.

Lemma set_dedup_key_idem x : set_dedup_key (set_dedup_key x) = set_dedup_key x.
Proof. done. Qed.

(** C6.  De-duplication keeps a sub-sequence of the rows in their
    original order, with pairwise different keys; for every key the first
    row that has it is the one kept; applying it to its own output changes
    nothing. *)
Theorem deduplicate_keeps_first (df : list row) :
  deduplicate df `sublist_of` map set_dedup_key df
  /\ NoDup (map dedup_key (deduplicate df))
  /\ (forall k, List.find (has_key k) (deduplicate df)
                = List.find (has_key k) (map set_dedup_key df))
  /\ deduplicate (deduplicate df) = deduplicate df.
Proof.
  unfold deduplicate, drop_duplicates. repeat split.
  - apply drop_duplicates_go_sublist.
  - apply drop_duplicates_go_NoDup.
  - intros k. apply drop_duplicates_go_find. set_solver.
  - set (out := drop_duplicates_go ∅ (map set_dedup_key df)).
    assert (Hfix : map set_dedup_key out = out).
    { rewrite <- (map_id out) at 2. apply map_ext_in. intros x Hx.
      apply list_elem_of_In in Hx.
      assert (Hin : x ∈ map set_dedup_key df).
      { eapply elem_of_sublist; [exact Hx|apply drop_duplicates_go_sublist]. }
      apply list_elem_of_fmap in Hin as (y & -> & _).
      apply set_dedup_key_idem. }
    rewrite Hfix. apply drop_duplicates_go_id.
    + apply drop_duplicates_go_NoDup.
    + set_solver.
Qed.

End Deduplication.

(** ** Retrieval *)

Section Retrieval.
Context {unicode : Unicode} {nlp : Nlp} {sklearn : Sklearn}.
Import Part4.

Lemma above_threshold score : Qle_bool score 0.05 = false -> (0.05 < score)%Q.
Proof.
  intros Hle. apply Qnot_le_lt. intros Hc.
  apply Qle_bool_iff in Hc. congruence.
Qed.

(** The invariant of the loop over the sorted positions, for any order of
    the positions. *)
Lemma scan_results_inv df sim target idxs count seen :
  let res := scan_results df sim target idxs count seen in
  (Z.of_nat (length res) <= Z.max 0 (target - count))%Z
  /\ Forall (fun h => (0.05 < hit_score h)%Q) res
  /\ NoDup (map hit_text res)
  /\ (forall h, h ∈ res -> hit_text h ∉ seen).
Proof.
  revert count seen. induction idxs as [|idx idxs IH]; intros count seen; simpl.
  - repeat split; [lia|constructor|constructor|by intros h ?%elem_of_nil].
  - destruct (count >=? target)%Z eqn:Hstop.
    { repeat split; [simpl; lia|constructor|constructor|by intros h ?%elem_of_nil]. }
    rewrite Z.geb_leb in Hstop. apply Z.leb_gt in Hstop.
    destruct (sim !! idx) as [score|]; [|apply IH].
    destruct (df !! idx) as [x|]; [|apply IH].
    destruct (Qle_bool score 0.05) eqn:Hscore; simpl; [apply IH|].
    destruct (decide _) as [Hseen|Hseen]; [apply IH|].
    destruct (IH (count + 1)%Z ({[question_text x]} ∪ seen))
      as (Hlen & Hsc & Hnd & Hfresh).
    repeat split.
    + simpl. lia.
    + constructor; [by apply above_threshold|done].
    + simpl. constructor; [|done].
      intros (h & Hh & Hin)%list_elem_of_fmap.
      apply Hfresh in Hin. set_solver.
    + intros h [->|Hin]%elem_of_cons; [done|].
      apply Hfresh in Hin. set_solver.
Qed.

Lemma query_well_ranked df lang sw corpus (top_k : nat) req :
  well_ranked top_k (query df lang sw corpus (Z.of_nat top_k) req).
Proof.
  unfold query.
  match goal with
  | |- well_ranked _ (scan_results ?d ?s ?t ?i ?c ?e) =>
      destruct (scan_results_inv d s t i c e) as (Hlen & Hsc & Hnd & _)
  end.
  repeat split; [lia|done|done].
Qed.

Lemma query_loop_well_ranked df lang sw corpus (top_k : nat) lines :
  Forall (well_ranked top_k)
    (query_loop df lang sw corpus (Z.of_nat top_k) lines).1.
Proof.
  induction lines as [|req lines IH]; simpl; [constructor|].
  destruct (decide _); [constructor|].
  destruct (decide _); [done|].
  destruct (query_loop _ _ _ _ _ lines) as [printed e]. simpl in *.
  constructor; [apply query_well_ranked|done].
Qed.

Lemma query_loop_ending df lang sw corpus target lines :
  (query_loop df lang sw corpus target lines).2 <> NotEnoughData.
Proof.
  induction lines as [|req lines IH]; simpl; [done|].
  destruct (decide _); [done|].
  destruct (decide _); [done|].
  by destruct (query_loop _ _ _ _ _ lines) as [printed e].
Qed.

Lemma argsort_insert_perm sim i l : argsort_insert sim i l ≡ₚ i :: l.
Proof.
  induction l as [|j l IH]; simpl; [done|].
  destruct (Qle_bool _ _); [done|].
  rewrite IH. apply Permutation_swap.
Qed.

(** [argsort] lists every position of the table once, so the loop never
    meets a position outside it. *)
Lemma argsort_perm sim : argsort sim ≡ₚ seq 0 (length sim).
Proof.
  unfold argsort. induction (seq 0 (length sim)) as [|i l IH]; simpl; [done|].
  by rewrite argsort_insert_perm, IH.
Qed.

(** C1.  Whatever the table, the language, the limit and the lines typed,
    every list of results printed by [generate_survey] has at most [top_k]
    entries, each with a similarity above 0.05, and no question text
    twice. *)
Theorem generate_survey_results (df : list row) (lang : str) (top_k : nat)
    (lines : list str) :
  Forall (well_ranked top_k) (generate_survey df lang (Z.of_nat top_k) lines).1.
Proof.
  unfold generate_survey.
  destruct (fit_transform _ _) as [|sw corpus]; [constructor|].
  apply query_loop_well_ranked.
Qed.

(** C7 (amended).  [generate_survey] ends with the not-enough-data message,
    having printed no result, exactly when the vectorizer keeps no term
    from any document; the empty corpus is such a case. *)
Theorem generate_survey_not_enough_data (df : list row) (lang : str)
    (target_count : Z) (lines : list str) :
  ((generate_survey df lang target_count lines).2 = NotEnoughData
   <-> Forall (fun x => sk_terms (survey_stop_words lang) (dedup_key x) = []) df)
  /\ ((generate_survey df lang target_count lines).2 = NotEnoughData
      -> (generate_survey df lang target_count lines).1 = [])
  /\ generate_survey [] lang target_count lines = ([], NotEnoughData).
Proof.
  unfold generate_survey, fit_transform.
  set (sw := survey_stop_words lang).
  assert (Hiff : forallb (has_no_term sw) (map dedup_key df) = true
                 <-> Forall (fun x => sk_terms sw (dedup_key x) = []) df).
  { rewrite forallb_forall, Forall_forall. split.
    - intros Hall x Hx. specialize (Hall (dedup_key x)).
      unfold has_no_term in Hall.
      destruct (sk_terms sw (dedup_key x)); [done|].
      discriminate Hall. apply in_map. by apply list_elem_of_In.
    - intros Hdf k (x & <- & Hx)%in_map_iff. unfold has_no_term.
      rewrite (Hdf x); [done|]. by apply list_elem_of_In. }
  split; [|split].
  - rewrite <- Hiff.
    destruct (forallb _ _); [done|].
    split; [|done]. intros Hend. by apply query_loop_ending in Hend.
  - destruct (forallb _ _); [done|].
    intros Hend. by apply query_loop_ending in Hend.
  - done.
Qed.

End Retrieval.

Section Retrieval_closed.
Import Part4.
Local Existing Instance ascii_unicode.
Local Existing Instance Toy.nlp.
Local Existing Instance Toy.sklearn.

(** A run with two rows of the same text: the text is printed once. *)
Example generate_survey_run :
  map (map hit_text)
    (generate_survey
       [Toy.doc_row "How clean was the room?" "clean room";
        Toy.doc_row "Rate the breakfast" "rate breakfast";
        Toy.doc_row "How clean was the room?" "clean room stay"]
       (u "en") 10 [u "clean room"; u " "; u "Exit"]).1
  = [[u "How clean was the room?"]].
Proof. vm_compute. reflexivity. Qed.

(** C7 as stated fails in both directions: one non-empty document with a
    term is enough to build the index, and two non-empty documents without
    any term are not. *)
Lemma generate_survey_document_count :
  (nonempty_documents [Toy.doc_row "Hotel room" "property room"] = 1%nat
   /\ (generate_survey [Toy.doc_row "Hotel room" "property room"]
         (u "en") 10 [u "exit"]).2 = SysExit 0)
  /\ (nonempty_documents [Toy.doc_row "A?" "a"; Toy.doc_row "B?" "b"] = 2%nat
      /\ (generate_survey [Toy.doc_row "A?" "a"; Toy.doc_row "B?" "b"]
            (u "en") 10 [u "exit"]).2 = NotEnoughData).
Proof. vm_compute. repeat split. Qed.

(** The amended C7 on a corpus of two documents without any term. *)
Lemma generate_survey_not_enough_data_witness :
  (generate_survey [Toy.doc_row "A?" "a"; Toy.doc_row "B?" "b"]
     (u "en") 10 [u "exit"]).2 = NotEnoughData
  /\ (generate_survey [Toy.doc_row "A?" "a"; Toy.doc_row "B?" "b"]
        (u "en") 10 [u "exit"]).1 = [].
Proof.
  destruct (generate_survey_not_enough_data
              [Toy.doc_row "A?" "a"; Toy.doc_row "B?" "b"] (u "en") 10 [u "exit"])
    as (Hiff & Hnone & _).
  assert (Hend : (generate_survey [Toy.doc_row "A?" "a"; Toy.doc_row "B?" "b"]
                    (u "en") 10 [u "exit"]).2 = NotEnoughData).
  { apply Hiff. repeat constructor. }
  split; [exact Hend | exact (Hnone Hend)].
Defined.

(** A question written only with ideographs after U+9FA5 goes through
    the pipeline into the English table. *)
Example late_ideographs_filed_as_english :
  map question_text
    (load_and_process_data
       [{| raw_question_text := VStr [0x9fa6; 0x9fa7; 0x9fa8; 0xff1f];
           raw_question_type := VStr (u "open_ended");
           raw_options_text := VStr [] |}]).1
  = [[0x9fa6; 0x9fa7; 0x9fa8; 0xff1f]].
Proof. vm_compute. reflexivity. Qed.

(** The two lemmas of C10 through the whole normalisation. *)
Example normalize_hotel_and_inn :
  normalize_for_dedup (VStr (u "Hotel")) (u "en") = u "property"
  /\ normalize_for_dedup (VStr (u "Inn")) (u "en") = u "accommodation".
Proof. vm_compute. split; reflexivity. Qed.

End Retrieval_closed.

(** ** The question store *)

Section Store.
Import Survey_database.

Lemma list_find_insert_same {A} (P : A -> Prop) `{!forall x, Decision (P x)}
    (l : list A) i x y :
  list_find P l = Some (i, x) -> P y ->
  list_find P (<[i:=y]> l) = Some (i, y).
Proof.
  intros (Hi & Hx & Hfirst)%list_find_Some Hy.
  apply list_find_Some. split; [|split; [done|]].
  - apply list_lookup_insert_eq. by eapply lookup_lt_Some.
  - intros j z Hj Hlt. rewrite list_lookup_insert_ne in Hj by lia.
    by eapply Hfirst.
Qed.

Lemma list_find_is_Some {A} (P : A -> Prop) `{!forall x, Decision (P x)}
    (l : list A) :
  is_Some (list_find P l) <-> exists x, x ∈ l /\ P x.
Proof.
  split.
  - intros [[i x] (Hi & Hx & _)%list_find_Some].
    exists x. split; [by eapply list_elem_of_lookup_2|done].
  - intros (x & Hin & Hx). by eapply list_find_elem_of.
Qed.

(** C9 (amended).  The call answers true exactly when a questionnaire and
    a question with the two ids exist, and leaves the store as it is when it
    answers false.  When it answers true and the question was not yet
    linked to the questionnaire, the question found by its id has its
    usage count increased by one (counted from 0 when absent) and the id is
    appended to the questionnaire; when the question was already linked,
    the store is unchanged. *)
Theorem add_question_to_questionnaire_spec (qnid qid : Z) (d : data) :
  ((add_question_to_questionnaire qnid qid d).1 = true
   <-> (exists qn, qn ∈ questionnaires d /\ qn_id qn = qnid)
       /\ (exists q, q ∈ questions d /\ id q = qid))
  /\ ((add_question_to_questionnaire qnid qid d).1 = false
      -> (add_question_to_questionnaire qnid qid d).2 = d)
  /\ (forall qn q,
        get_questionnaire_by_id qnid d = Some qn ->
        get_question_by_id qid d = Some q ->
        (qid ∈ question_ids qn ->
           add_question_to_questionnaire qnid qid d = (true, d))
        /\ (qid ∉ question_ids qn ->
             let d' := (add_question_to_questionnaire qnid qid d).2 in
             (add_question_to_questionnaire qnid qid d).1 = true
             /\ (usage_count <$> get_question_by_id qid d')
                = Some (Some (default 0 (usage_count q) + 1)%Z)
             /\ get_questionnaire_by_id qnid d'
                = Some (append_question_id qid qn))).
Proof.
  unfold add_question_to_questionnaire, get_questionnaire_by_id,
    get_question_by_id, find_questionnaire, find_question.
  pose proof (list_find_is_Some (fun qn => qn_id qn = qnid) (questionnaires d))
    as Hex1.
  pose proof (list_find_is_Some (fun q => id q = qid) (questions d)) as Hex2.
  rewrite <- Hex1, <- Hex2. clear Hex1 Hex2.
  destruct (list_find _ (questionnaires d)) as [[i qn]|] eqn:Hqn;
    destruct (list_find _ (questions d)) as [[j q]|] eqn:Hq; simpl.
  - split; [|split].
    + destruct (decide _); simpl; split; eauto.
    + destruct (decide _); simpl; done.
    + intros qn' q' [= <-] [= <-]. split.
      * intros Hin. by rewrite decide_True.
      * intros Hnin. rewrite decide_False by done. simpl.
        rewrite (list_find_insert_same _ _ _ _ (bump_usage q) Hq).
        2:{ simpl. by apply list_find_Some in Hq as (_ & ? & _). }
        rewrite (list_find_insert_same _ _ _ _ (append_question_id qid qn) Hqn).
        2:{ simpl. by apply list_find_Some in Hqn as (_ & ? & _). }
        done.
  - split; [|split]; [|done|by intros qn' q' _ [=]].
    split; [done|]. by intros [_ [x [=]]].
  - split; [|split]; [|done|by intros qn' q' [=]].
    split; [done|]. by intros [[x [=]] _].
  - split; [|split]; [|done|by intros qn' q' [=]].
    split; [done|]. by intros [[x [=]] _].
Qed.

(** The amended C9 on a stored question that is not linked yet: its
    usage count goes from 0 to 1. *)
Lemma add_question_to_questionnaire_spec_witness :
  (add_question_to_questionnaire 1 8 Toy.linked_store).1 = true
  /\ (usage_count <$>
        get_question_by_id 8 (add_question_to_questionnaire 1 8 Toy.linked_store).2)
     = Some (Some 1%Z).
Proof.
  destruct (add_question_to_questionnaire_spec 1 8 Toy.linked_store)
    as (_ & _ & Hlink).
  destruct (Hlink {| qn_id := 1; qn_title := u "Guests"; question_ids := [7%Z] |}
              (Toy.stored_question 8 "Would you recommend us?" "recommendation" 0)
              eq_refl eq_refl) as [_ Hnew].
  destruct Hnew as (Htrue & Husage & _).
  - intros Hin. apply list_elem_of_In in Hin. simpl in Hin.
    destruct Hin as [Heq|[]]. discriminate Heq.
  - split; [exact Htrue | exact Husage].
Defined.

(** C9 as stated fails: linking question 7 again answers true, and its
    usage count stays at 1. *)
Lemma add_question_to_questionnaire_relink :
  (add_question_to_questionnaire 1 7 Toy.linked_store).1 = true
  /\ (usage_count <$> get_question_by_id 7 Toy.linked_store) = Some (Some 1%Z)
  /\ (usage_count <$>
        get_question_by_id 7 (add_question_to_questionnaire 1 7 Toy.linked_store).2)
     = Some (Some 1%Z).
Proof. vm_compute. repeat split. Qed.

End Store.

(** ** Ranking *)

Section Ranking.
Import Survey_database Q5_v1.

Lemma insert_desc_perm p l : insert_desc p l ≡ₚ p :: l.
Proof.
  induction l as [|p' l IH]; simpl; [done|].
  destruct (Qle_bool p'.2 p.2); [done|].
  rewrite IH. apply Permutation_swap.
Qed.

Lemma sort_desc_perm pairs : sort_desc pairs ≡ₚ pairs.
Proof.
  induction pairs as [|p pairs IH]; simpl; [done|].
  by rewrite insert_desc_perm, IH.
Qed.

Lemma insert_desc_sorted p l :
  StronglySorted score_ge l -> StronglySorted score_ge (insert_desc p l).
Proof.
  induction 1 as [|p' l Hl IH Hp']; simpl.
  - repeat constructor.
  - destruct (Qle_bool p'.2 p.2) eqn:Hle.
    + apply Qle_bool_iff in Hle. constructor; [by constructor|].
      constructor; [exact Hle|].
      eapply Forall_impl; [exact Hp'|]. intros x Hx. unfold score_ge in *.
      by eapply Qle_trans.
    + assert (Hlt : (p.2 < p'.2)%Q).
      { apply Qnot_le_lt. intros Hc. apply Qle_bool_iff in Hc. congruence. }
      constructor; [exact IH|].
      apply Forall_forall. intros x Hx.
      rewrite insert_desc_perm in Hx. apply elem_of_cons in Hx as [->|Hx].
      * unfold score_ge. by apply Qlt_le_weak.
      * rewrite Forall_forall in Hp'. by apply Hp'.
Qed.

Lemma sort_desc_sorted pairs : StronglySorted score_ge (sort_desc pairs).
Proof.
  induction pairs as [|p pairs IH]; simpl; [constructor|].
  by apply insert_desc_sorted.
Qed.

Lemma insert_desc_with_score s p l :
  with_score s (insert_desc p l) = with_score s (p :: l).
Proof.
  unfold with_score. induction l as [|p' l IH]; simpl; [done|].
  destruct (Qle_bool p'.2 p.2) eqn:Hle; [done|].
  simpl. rewrite IH. simpl.
  destruct (Qeq_bool p.2 s) eqn:Hp; [|done].
  destruct (Qeq_bool p'.2 s) eqn:Hp'; [|done].
  apply Qeq_bool_iff in Hp, Hp'.
  assert (Hc : Qle_bool p'.2 p.2 = true); [|congruence].
  apply Qle_bool_iff. rewrite Hp, Hp'. apply Qle_refl.
Qed.

Lemma sort_desc_with_score s pairs :
  with_score s (sort_desc pairs) = with_score s pairs.
Proof.
  induction pairs as [|p pairs IH]; simpl; [done|].
  rewrite insert_desc_with_score. unfold with_score in *. simpl.
  by rewrite IH.
Qed.

(** C8.  The sorted list holds the same candidates, in descending order
    of score, and the candidates of any one score stand in the order they
    had in the pool. *)
Theorem sort_desc_stable (pairs : list pair) :
  sort_desc pairs ≡ₚ pairs
  /\ StronglySorted score_ge (sort_desc pairs)
  /\ (forall s, with_score s (sort_desc pairs) = with_score s pairs).
Proof.
  split; [apply sort_desc_perm|].
  split; [apply sort_desc_sorted|].
  intros s. apply sort_desc_with_score.
Qed.

(** The ranking phase of [generate_questionnaire] ends with this sort. *)
Lemma rank_sorted `{Unicode} `{Sklearn} req questions :
  StronglySorted score_ge (rank req questions).
Proof. unfold rank. apply sort_desc_sorted. Qed.

End Ranking.

(** ** Selection *)

Section Selection.
Context {unicode : Unicode} {sklearn : Sklearn}.
Import Survey_database Q5_v1.

Lemma select_consistent p rc sel :
  consistent sel -> id p.1 ∉ used_ids sel -> consistent (select p rc sel).
Proof.
  intros [Hnd Hused] Hp. unfold consistent, selected_ids, select in *. simpl.
  rewrite map_app. simpl. split.
  - apply NoDup_app. split; [done|]. split; [|apply NoDup_singleton].
    intros x Hx ?%list_elem_of_singleton. subst x.
    apply Hp. rewrite Hused. by apply elem_of_list_to_set.
  - rewrite Hused, list_to_set_app_L. simpl. set_solver.
Qed.

Lemma select_length p rc sel :
  length (selected_pairs (select p rc sel)) = S (length (selected_pairs sel)).
Proof. unfold select. simpl. rewrite length_app. simpl. lia. Qed.

Lemma cover_category_consistent cat_map sel rc :
  consistent sel -> consistent (cover_category cat_map sel rc).
Proof.
  intros Hsel. unfold cover_category.
  destruct (default [] (cat_map !! rc)) as [|chosen rest]; [done|].
  destruct (decide _); [done|]. by apply select_consistent.
Qed.

Lemma cover_missing_consistent full_bank sel rc :
  consistent sel -> consistent (cover_missing full_bank sel rc).
Proof.
  intros Hsel. unfold cover_missing.
  destruct (List.find _ full_bank) as [q|] eqn:Hfind; [|done].
  apply find_some in Hfind as [_ Hq].
  apply andb_true_iff in Hq as [_ Hq]. apply negb_true_iff in Hq.
  apply bool_decide_eq_false_1 in Hq. by apply select_consistent.
Qed.

Lemma foldl_consistent (step : selection -> str -> selection) cats sel :
  (forall sel rc, consistent sel -> consistent (step sel rc)) ->
  consistent sel -> consistent (foldl step sel cats).
Proof.
  intros Hstep. revert sel. induction cats as [|rc cats IH]; intros sel Hsel;
    simpl; [done|]. apply IH. by apply Hstep.
Qed.

Lemma pin_categories_consistent req full_bank pairs :
  consistent (pin_categories req full_bank pairs).
Proof.
  unfold pin_categories.
  apply foldl_consistent; [apply cover_missing_consistent|].
  apply foldl_consistent; [apply cover_category_consistent|].
  split; [constructor|done].
Qed.

Lemma fill_by_rank_consistent qcount pairs sel :
  consistent sel -> consistent (fill_by_rank qcount pairs sel).
Proof.
  revert sel. induction pairs as [|p pairs IH]; intros sel Hsel; simpl; [done|].
  destruct (_ >=? _)%Z; [done|].
  destruct (decide _); [by apply IH|].
  apply IH. by apply select_consistent.
Qed.

(** How many questions the fill pass adds. *)
Lemma fill_by_rank_length qcount pairs sel :
  length (selected_pairs (fill_by_rank qcount pairs sel))
  = (length (selected_pairs sel)
     + Nat.min (Z.to_nat (qcount - Z.of_nat (length (selected_pairs sel))))
               (size (fresh_ids pairs sel)))%nat.
Proof.
  revert sel. induction pairs as [|p pairs IH]; intros sel; simpl.
  - assert (Hnone : fresh_ids [] sel = ∅) by (unfold fresh_ids; set_solver).
    rewrite Hnone, size_empty. lia.
  - destruct (_ >=? _)%Z eqn:Hstop.
    { rewrite Z.geb_leb in Hstop. apply Z.leb_le in Hstop. lia. }
    rewrite Z.geb_leb in Hstop. apply Z.leb_gt in Hstop.
    destruct (decide (id p.1 ∈ used_ids sel)) as [Hused|Hfresh].
    + rewrite IH. do 2 f_equal. f_equal. unfold fresh_ids. simpl. set_solver.
    + rewrite IH, select_length.
      assert (Hsize : size (fresh_ids (p :: pairs) sel)
                      = S (size (fresh_ids pairs (select p None sel)))).
      { assert (Heq : fresh_ids (p :: pairs) sel
                      = {[id p.1]} ∪ fresh_ids pairs (select p None sel)).
        { unfold fresh_ids, select. simpl.
          apply set_eq. intros x.
          destruct (decide (x = id p.1)); set_solver. }
        rewrite Heq, size_union, size_singleton; [done|].
        unfold fresh_ids, select. simpl. set_solver. }
      rewrite Hsize. lia.
Qed.

Lemma select_pairs_consistent req full_bank pairs :
  consistent (select_pairs req full_bank pairs).
Proof.
  unfold select_pairs. apply fill_by_rank_consistent, pin_categories_consistent.
Qed.

Lemma generate_questionnaire_ids req db :
  question_ids (generate_questionnaire req db)
  = selected_ids (select_pairs req (get_all_questions db) (candidates req db)).
Proof.
  unfold generate_questionnaire, selected_ids. simpl.
  rewrite map_map. done.
Qed.

(** C2 (amended).  The ids of the output are pairwise different.  The
    output holds the questions pinned for the requested categories, which
    are not limited by [question_count], followed by those of the fill pass:
    its length is at least the number pinned and at most the larger of
    [question_count] and the number pinned, and it is equal to that bound
    when the ranked candidates still hold enough unused ids. *)
Theorem generate_questionnaire_count (req : requirements) (db : data) :
  let out := generate_questionnaire req db in
  let pinned := pin_categories req (get_all_questions db) (candidates req db) in
  let n_pinned := length (selected_pairs pinned) in
  NoDup (question_ids out)
  /\ length (question_ids out) = length (ordered_questions out)
  /\ (n_pinned <= length (ordered_questions out))%nat
  /\ (Z.of_nat (length (ordered_questions out))
      <= Z.max (question_count req) (Z.of_nat n_pinned))%Z
  /\ ((question_count req
       <= Z.of_nat (n_pinned + size (fresh_ids (candidates req db) pinned)))%Z
      -> Z.of_nat (length (ordered_questions out))
         = Z.max (question_count req) (Z.of_nat n_pinned)).
Proof.
  intros out pinned n_pinned.
  assert (Hlen : length (ordered_questions out)
                 = (n_pinned
                    + Nat.min (Z.to_nat (question_count req - Z.of_nat n_pinned))
                        (size (fresh_ids (candidates req db) pinned)))%nat).
  { subst out. unfold generate_questionnaire. simpl. rewrite length_map.
    unfold select_pairs. by rewrite fill_by_rank_length. }
  split.
  { subst out. rewrite generate_questionnaire_ids.
    apply select_pairs_consistent. }
  split.
  { subst out. unfold generate_questionnaire. simpl. by rewrite length_map. }
  rewrite Hlen. repeat split; lia.
Qed.

End Selection.

Section Selection_closed.
Import Survey_database Q5_v1.
Local Existing Instance ascii_unicode.
Local Existing Instance Toy.sklearn.

(** The amended C2 on a bank of three questions of the requested category
    and a request for two: one is pinned, one more comes from the ranking. *)
Lemma generate_questionnaire_count_witness :
  length (ordered_questions
            (generate_questionnaire
               (Toy.hotel_requirements 2 ["Satisfaction"%string] None)
               Toy.satisfaction_store)) = 2%nat.
Proof.
  destruct (generate_questionnaire_count
              (Toy.hotel_requirements 2 ["Satisfaction"%string] None)
              Toy.satisfaction_store) as (_ & _ & _ & _ & Hfull).
  apply Nat2Z.inj. rewrite Hfull; [reflexivity|].
  vm_compute. discriminate.
Defined.

(** C2 as stated fails: with two requested categories and a request for
    one question, both categories are pinned and the output has two
    entries, more than [question_count]. *)
Lemma generate_questionnaire_exceeds_count :
  question_ids
    (generate_questionnaire
       (Toy.hotel_requirements 1 ["Satisfaction"; "Recommendation"]%string None)
       Toy.linked_store) = [7; 8]%Z
  /\ Z.of_nat (length (ordered_questions
                         (generate_questionnaire
                            (Toy.hotel_requirements 1
                               ["Satisfaction"; "Recommendation"]%string None)
                            Toy.linked_store)))
     <> Z.min 1 (Z.of_nat (length (reachable_pool
                                     (Toy.hotel_requirements 1
                                        ["Satisfaction"; "Recommendation"]%string
                                        None)
                                     Toy.linked_store))).
Proof. split; [vm_compute; reflexivity|]. vm_compute. discriminate. Qed.

(** The relaxed pass extends the local list [selected] only: with one
    question of the requested category among three and a request for
    three, the output has one entry. *)
Example fallback_not_in_output :
  let req := Toy.hotel_requirements 3 ["Satisfaction"%string] (Some "en"%string) in
  let db := Toy.mixed_store in
  question_ids (generate_questionnaire req db) = [1%Z]
  /\ map id (selected_after_fallback req (get_all_questions db)
               (select_pairs req (get_all_questions db) (candidates req db)))
     = [1; 2; 3]%Z.
Proof. vm_compute. split; reflexivity. Qed.

End Selection_closed.

(** * Further properties *)

(** ** Stripping *)

Section Stripping.

Lemma lstrip_decomp s :
  exists ws, s = ws ++ lstrip s /\ Forall (fun c => isspace c = true) ws.
Proof.
  induction s as [|c s (ws & Hs & Hws)]; simpl.
  - by exists [].
  - destruct (isspace c) eqn:Hc.
    + exists (c :: ws). split; [simpl; by f_equal | by constructor].
    + by exists [].
Qed.

Lemma lstrip_length s : (length (lstrip s) <= length s)%nat.
Proof.
  destruct (lstrip_decomp s) as (ws & Hs & _).
  rewrite Hs at 2. rewrite length_app. lia.
Qed.

Lemma lstrip_head c s : lstrip s = c :: drop 1 (lstrip s) -> isspace c = false.
Proof.
  induction s as [|a s IH]; simpl; [done|].
  destruct (isspace a) eqn:Ha; [exact IH|].
  by intros [= <-].
Qed.

Lemma lstrip_fixed c s : lstrip (c :: s) = c :: s -> isspace c = false.
Proof.
  intros Hs. apply (lstrip_head c (c :: s)). by rewrite Hs.
Qed.

Lemma lstrip_idem s : lstrip (lstrip s) = lstrip s.
Proof.
  induction s as [|c s IH]; simpl; [done|].
  destruct (isspace c) eqn:Hc; [done|]. simpl. by rewrite Hc.
Qed.

Lemma rstrip_decomp s :
  exists ws, s = rstrip s ++ ws /\ Forall (fun c => isspace c = true) ws.
Proof.
  unfold rstrip. destruct (lstrip_decomp (rev s)) as (ws & Hs & Hws).
  exists (rev ws). split.
  - apply (f_equal (@rev N)) in Hs.
    by rewrite rev_involutive, rev_app_distr in Hs.
  - apply Forall_forall. intros c Hc. rewrite Forall_forall in Hws.
    apply Hws. apply list_elem_of_In. apply in_rev. by apply list_elem_of_In.
Qed.

Lemma rstrip_idem s : rstrip (rstrip s) = rstrip s.
Proof. unfold rstrip. by rewrite rev_involutive, lstrip_idem. Qed.

Lemma lstrip_rstrip s : lstrip s = s -> lstrip (rstrip s) = rstrip s.
Proof.
  intros Hs. destruct (rstrip_prefix s) as [post Hpost].
  destruct (rstrip s) as [|c r]; [done|].
  apply lstrip_not_space. rewrite Hpost in Hs. simpl in Hpost.
  by apply lstrip_fixed in Hs.
Qed.

Lemma strip_stripped s : stripped (strip s).
Proof.
  unfold stripped, strip. split.
  - apply lstrip_rstrip, lstrip_idem.
  - apply rstrip_idem.
Qed.

Lemma stripped_strip s : stripped s -> strip s = s.
Proof. intros [Hl Hr]. unfold strip. by rewrite Hl. Qed.

(** A stripped string has no space at its first or last position. *)
Lemma stripped_ends s :
  stripped s ->
  (forall c r, s = c :: r -> isspace c = false)
  /\ (forall c r, s = r ++ [c] -> isspace c = false).
Proof.
  intros [Hl Hr]. split.
  - intros c r ->. by apply lstrip_fixed in Hl.
  - intros c r ->. unfold rstrip in Hr.
    apply (f_equal (@rev N)) in Hr. rewrite rev_involutive in Hr.
    rewrite rev_app_distr in Hr. simpl in Hr.
    by apply lstrip_fixed in Hr.
Qed.

End Stripping.

(** ** Cleaning keeps a part of the input *)

Section Cleaning.
Context {unicode : Unicode}.
Import Part4.

(** X1.  Cleaning only cuts: the result is a contiguous part of the input,
    followed in the input by nothing but whitespace, and it has no space
    at either end. *)
Theorem clean_question_text_infix (s : str) :
  (exists pre post,
      s = pre ++ clean_question_text (VStr s) ++ post
      /\ Forall (fun c => isspace c = true) post)
  /\ stripped (clean_question_text (VStr s)).
Proof.
  split; [|apply strip_stripped].
  unfold clean_question_text.
  set (t := sub_enum (sub_ask s)).
  assert (Ht : t `suffix_of` s).
  { subst t. etrans; [apply sub_enum_suffix|apply sub_ask_suffix]. }
  set (t' := match search_from is_start_char t with
             | Some from_start => from_start
             | None => t
             end).
  assert (Ht' : t' `suffix_of` s).
  { subst t'. destruct (search_from _ t) as [r|] eqn:E; [|done].
    apply search_from_Some in E as (pre & c & rest & Hpre & -> & _).
    etrans; [|exact Ht]. rewrite Hpre. by apply suffix_app_r. }
  destruct Ht' as [p1 Hp1].
  destruct (lstrip_decomp t') as (ws1 & Hws1 & _).
  destruct (rstrip_decomp (lstrip t')) as (ws2 & Hws2 & Hspace).
  exists (p1 ++ ws1), ws2. split; [|done].
  unfold strip. rewrite <- app_assoc, <- Hws2, <- Hws1. done.
Qed.

End Cleaning.

(** ** Parsing an options string *)

Section Options.
Import Q5_v1.

Lemma split_on_pieces sep cur s :
  Forall (fun c => sep c = false) cur ->
  Forall (Forall (fun c => sep c = false)) (split_on sep cur s).
Proof.
  revert cur. induction s as [|c s IH]; intros cur Hcur; simpl.
  - constructor; [|constructor].
    apply Forall_forall. intros x Hx. rewrite Forall_forall in Hcur.
    apply Hcur. apply list_elem_of_In. apply in_rev. by apply list_elem_of_In.
  - destruct (sep c) eqn:Hc.
    + constructor; [|by apply IH].
      apply Forall_forall. intros x Hx. rewrite Forall_forall in Hcur.
      apply Hcur. apply list_elem_of_In. apply in_rev. by apply list_elem_of_In.
    + apply IH. by constructor.
Qed.

(** X18.  Every option returned by [parse_options] is non-empty, has no space
    at either end, and holds none of the separators. *)
Theorem parse_options_parts (options_raw : str) :
  Forall (fun p => p <> [] /\ stripped p
                   /\ Forall (fun c => is_option_sep c = false) p)
    (parse_options options_raw).
Proof.
  unfold parse_options. apply Forall_forall. intros p Hp.
  apply list_elem_of_fmap in Hp as (piece & -> & Hpiece).
  apply list_elem_of_In, filter_In in Hpiece as [Hin Hne].
  apply negb_true_iff, bool_decide_eq_false_1 in Hne.
  split; [done|]. split; [apply strip_stripped|].
  pose proof (split_on_pieces is_option_sep [] options_raw
                (Forall_nil_2 _)) as Hall.
  rewrite Forall_forall in Hall. apply list_elem_of_In in Hin.
  specialize (Hall _ Hin). apply Forall_forall. intros c Hc.
  rewrite Forall_forall in Hall. apply Hall. by apply strip_elem.
Qed.

(** X19.  Without any separator the whole string is one option, or none when it
    is blank. *)
Theorem parse_options_single (options_raw : str) :
  Forall (fun c => is_option_sep c = false) options_raw ->
  parse_options options_raw
  = if decide (strip options_raw = []) then [] else [strip options_raw].
Proof.
  intros Hno. unfold parse_options.
  assert (Hsplit : forall cur s, Forall (fun c => is_option_sep c = false) s ->
                     split_on is_option_sep cur s = [rev cur ++ s]).
  { intros cur s. revert cur. induction s as [|c s IH]; intros cur Hs; simpl.
    - by rewrite app_nil_r.
    - apply Forall_cons in Hs as [Hc Hs]. rewrite Hc, IH by done.
      simpl. by rewrite <- app_assoc. }
  rewrite Hsplit by done. simpl.
  destruct (decide _) as [He|He].
  - by rewrite bool_decide_eq_true_2.
  - by rewrite bool_decide_eq_false_2.
Qed.

End Options.

Section Options_closed.
Import Q5_v1.

Lemma parse_options_single_witness :
  parse_options (u " Very good ") = [u "Very good"].
Proof.
  rewrite (parse_options_single (u " Very good ")); [reflexivity|].
  repeat constructor.
Defined.

Example parse_options_mixed :
  parse_options (u "Yes / No;Maybe, ,") = [u "Yes"; u "No"; u "Maybe"].
Proof. reflexivity. Qed.

End Options_closed.

(** ** The question store: lookups, additions, statistics *)

Section Store_more.
Import Survey_database.

(** X20.  A lookup by id gives a stored question with that id, and gives
    nothing exactly when no stored question has the id. *)
Theorem get_question_by_id_spec (qid : Z) (d : data) :
  (get_question_by_id qid d = None
   <-> forall q, q ∈ questions d -> id q <> qid)
  /\ (forall q, get_question_by_id qid d = Some q ->
        q ∈ questions d /\ id q = qid).
Proof.
  unfold get_question_by_id, find_question. split.
  - destruct (list_find _ _) as [[i q]|] eqn:Hfind; simpl.
    + apply list_find_Some in Hfind as (Hi & Hq & _).
      split; [done|]. intros Hall. exfalso.
      apply (Hall q); [by eapply list_elem_of_lookup_2|done].
    + apply list_find_None in Hfind. rewrite Forall_forall in Hfind.
      split; [|done]. intros _ q Hq. by apply Hfind.
  - intros q Hq. destruct (list_find _ _) as [[i q']|] eqn:Hfind; [|done].
    simpl in Hq. injection Hq as ->.
    apply list_find_Some in Hfind as (Hi & Hid & _).
    split; [by eapply list_elem_of_lookup_2|done].
Qed.

Lemma foldl_max_ge (i : Z) (ids : list Z) :
  (i <= foldl Z.max i ids)%Z /\ Forall (fun j => (j <= foldl Z.max i ids)%Z) ids.
Proof.
  revert i. induction ids as [|j ids IH]; intros i; simpl.
  - split; [lia|constructor].
  - destruct (IH (Z.max i j)) as [Hm Hall]. split; [lia|].
    constructor; [lia|done].
Qed.

Lemma next_id_greater (ids : list Z) :
  Forall (fun j => (j < next_id ids)%Z) ids.
Proof.
  destruct ids as [|i ids]; simpl; [constructor|].
  destruct (foldl_max_ge i ids) as [Hi Hall].
  constructor; [lia|]. eapply Forall_impl; [exact Hall|]. simpl. lia.
Qed.

Lemma list_find_insert_other {A} (P : A -> Prop) `{!forall x, Decision (P x)}
    (l : list A) i x y :
  l !! i = Some x -> ~ P x -> ~ P y ->
  list_find P (<[i:=y]> l) = list_find P l.
Proof.
  revert i. induction l as [|z l IH]; intros i Hi Hx Hy; [done|].
  destruct i as [|i]; simpl in *.
  - injection Hi as ->. by rewrite !decide_False.
  - destruct (decide (P z)); [done|]. by rewrite (IH i).
Qed.

(** X21.  [add_question] returns an id above every stored id.  For a new
    dict, the question is then found under that id with a usage count of 0
    and the contents given, every other id is looked up as before, and the
    bank has one more question.  For a dict that is already stored, that
    question is renumbered where it stands: it is found under the new id,
    ids other than its old and its new one are looked up as before, and
    its old id is found no more unless another question has it. *)
Theorem add_question_lookup (d : data) :
  let new_id := next_id (map id (questions d)) in
  (forall question_data, (add_question question_data d).1 = new_id)
  /\ (forall q, q ∈ questions d -> (id q < new_id)%Z)
  /\ (forall q,
        let d' := (add_question (NewDict q) d).2 in
        get_question_by_id new_id d' = Some (stamp new_id q)
        /\ (forall qid, qid <> new_id ->
              get_question_by_id qid d' = get_question_by_id qid d)
        /\ questionnaires d' = questionnaires d
        /\ length (questions d') = S (length (questions d)))
  /\ (forall i q, questions d !! i = Some q ->
        let d' := (add_question (StoredAt i) d).2 in
        get_question_by_id new_id d' = Some (stamp new_id q)
        /\ questions d' !! i = Some (stamp new_id q)
        /\ (forall qid, qid <> new_id -> qid <> id q ->
              get_question_by_id qid d' = get_question_by_id qid d)
        /\ ((forall j q', questions d !! j = Some q' -> j <> i -> id q' <> id q)
            -> get_question_by_id (id q) d' = None)
        /\ questionnaires d' = questionnaires d
        /\ length (questions d') = S (length (questions d))).
Proof.
  intros new_id.
  assert (Hfresh : forall q, q ∈ questions d -> (id q < new_id)%Z).
  { intros q Hq. pose proof (next_id_greater (map id (questions d))) as Hall.
    rewrite Forall_forall in Hall. apply Hall.
    apply list_elem_of_fmap. by exists q. }
  assert (Hnone : list_find (fun q => id q = new_id) (questions d) = None).
  { apply list_find_None, Forall_forall. intros q Hq Heq.
    specialize (Hfresh q Hq). lia. }
  split; [|split; [exact Hfresh|split]].
  - intros [q|i]; simpl; [done|]. by destruct (questions d !! i).
  - intros q. simpl. fold new_id. split; [|split; [|split]].
    + unfold get_question_by_id, find_question. simpl.
      rewrite list_find_app_r by exact Hnone. simpl.
      by rewrite decide_True.
    + intros qid Hne. unfold get_question_by_id, find_question. simpl.
      destruct (list_find (fun q => id q = qid) (questions d))
        as [[j q']|] eqn:Hf.
      * by rewrite (list_find_app_l _ _ _ _ _ Hf).
      * rewrite list_find_app_r by exact Hf. simpl.
        by rewrite decide_False by (intros Heq; by apply Hne).
    + done.
    + rewrite length_app. simpl. lia.
  - intros i q Hi. simpl. rewrite Hi. simpl. fold new_id.
    assert (Hq : (id q < new_id)%Z).
    { apply Hfresh. by eapply list_elem_of_lookup_2. }
    assert (Hlt : (i < length (questions d))%nat) by (by eapply lookup_lt_Some).
    split; [|split; [|split; [|split; [|split]]]].
    + unfold get_question_by_id, find_question. simpl.
      assert (Hf : list_find (fun q => id q = new_id)
                     (<[i:=stamp new_id q]> (questions d))
                   = Some (i, stamp new_id q)).
      { apply list_find_Some. split; [|split; [done|]].
        - by apply list_lookup_insert_eq.
        - intros j y Hj Hji. rewrite list_lookup_insert_ne in Hj by lia.
          intros Heq. apply list_elem_of_lookup_2 in Hj.
          specialize (Hfresh y Hj). lia. }
      by rewrite (list_find_app_l _ _ _ _ _ Hf).
    + rewrite lookup_app_l by (by rewrite length_insert).
      by apply list_lookup_insert_eq.
    + intros qid Hnew Hold. unfold get_question_by_id, find_question. simpl.
      assert (Hsame : list_find (fun q => id q = qid)
                        (<[i:=stamp new_id q]> (questions d))
                      = list_find (fun q => id q = qid) (questions d)).
      { apply (list_find_insert_other _ _ _ q); [done| |].
        - intros Heq. by apply Hold.
        - simpl. intros Heq. by apply Hnew. }
      destruct (list_find (fun q => id q = qid) (questions d))
        as [[j q']|] eqn:Hf.
      * by rewrite (list_find_app_l _ _ _ _ _ Hsame).
      * rewrite list_find_app_r by exact Hsame. simpl.
        by rewrite decide_False by (intros Heq; by apply Hnew).
    + intros Hothers. unfold get_question_by_id, find_question. simpl.
      assert (Hf : list_find (fun q0 => id q0 = id q)
                     (<[i:=stamp new_id q]> (questions d) ++ [stamp new_id q])
                   = None).
      { apply list_find_None, Forall_app. split.
        - apply Forall_forall. intros y Hy.
          apply list_elem_of_lookup in Hy as [j Hj].
          destruct (decide (j = i)) as [->|Hji].
          + rewrite list_lookup_insert_eq in Hj by done.
            injection Hj as <-. simpl. lia.
          + rewrite list_lookup_insert_ne in Hj by done. by eapply Hothers.
        - constructor; [simpl; lia|constructor]. }
      by rewrite Hf.
    + done.
    + rewrite length_app, length_insert. simpl. lia.
Qed.

(** X22.  Linking a second time changes nothing: the answer and the store are
    those of the first call. *)
Theorem add_question_to_questionnaire_again (qnid qid : Z) (d : data) :
  add_question_to_questionnaire qnid qid
    (add_question_to_questionnaire qnid qid d).2
  = add_question_to_questionnaire qnid qid d.
Proof.
  unfold add_question_to_questionnaire at 2 3.
  unfold find_questionnaire, find_question.
  destruct (list_find _ (questionnaires d)) as [[i qn]|] eqn:Hqn; simpl.
  2:{ unfold add_question_to_questionnaire, find_questionnaire. by rewrite Hqn. }
  destruct (list_find _ (questions d)) as [[j q]|] eqn:Hq; simpl.
  2:{ unfold add_question_to_questionnaire, find_questionnaire, find_question.
      by rewrite Hqn, Hq. }
  destruct (decide (qid ∈ question_ids qn)) as [Hin|Hnin]; simpl.
  - unfold add_question_to_questionnaire, find_questionnaire, find_question.
    rewrite Hqn, Hq. by rewrite decide_True.
  - unfold add_question_to_questionnaire, find_questionnaire, find_question.
    simpl.
    rewrite (list_find_insert_same _ _ _ _ (bump_usage q) Hq).
    2:{ simpl. by apply list_find_Some in Hq as (_ & ? & _). }
    rewrite (list_find_insert_same _ _ _ _ (append_question_id qid qn) Hqn).
    2:{ simpl. by apply list_find_Some in Hqn as (_ & ? & _). }
    rewrite decide_True; [done|]. simpl. apply elem_of_app. right. left.
Qed.

(** X23.  Linking never adds, removes or renumbers anything: the ids of the
    questions and of the questionnaires stay in place, and a question with
    another id is left as it was. *)
Theorem add_question_to_questionnaire_keeps (qnid qid : Z) (d : data) :
  let d' := (add_question_to_questionnaire qnid qid d).2 in
  map id (questions d') = map id (questions d)
  /\ map qn_id (questionnaires d') = map qn_id (questionnaires d)
  /\ (forall i q, questions d !! i = Some q -> id q <> qid ->
        questions d' !! i = Some q)
  /\ (forall i qn, questionnaires d !! i = Some qn -> qn_id qn <> qnid ->
        questionnaires d' !! i = Some qn).
Proof.
  unfold add_question_to_questionnaire, find_questionnaire, find_question.
  destruct (list_find _ (questionnaires d)) as [[i qn]|] eqn:Hqn; [|done].
  destruct (list_find _ (questions d)) as [[j q]|] eqn:Hq; [|done].
  destruct (decide _); simpl; [done|].
  apply list_find_Some in Hq as (Hj & Hjid & _).
  apply list_find_Some in Hqn as (Hi & Hiid & _).
  repeat split.
  - change (id <$> <[j:=bump_usage q]> (questions d) = id <$> questions d).
    rewrite list_fmap_insert. simpl. apply list_insert_id.
    by rewrite list_lookup_fmap, Hj.
  - change (qn_id <$> <[i:=append_question_id qid qn]> (questionnaires d)
            = qn_id <$> questionnaires d).
    rewrite list_fmap_insert. simpl. apply list_insert_id.
    by rewrite list_lookup_fmap, Hi.
  - intros k q' Hk Hne. rewrite list_lookup_insert_ne; [done|].
    intros ->. congruence.
  - intros k qn' Hk Hne. rewrite list_lookup_insert_ne; [done|].
    intros ->. congruence.
Qed.

End Store_more.

(** ** Statistics of the store *)

Section Statistics.
Import Survey_database.

Lemma sum_values_insert_fresh (k : str) (n : nat) (counts : gmap str nat) :
  counts !! k = None ->
  sum_values (<[k:=n]> counts) = (n + sum_values counts)%nat.
Proof.
  intros Hk. unfold sum_values.
  rewrite map_fold_insert_L; [done| |done].
  intros. lia.
Qed.

Lemma sum_values_empty : sum_values ∅ = 0%nat.
Proof. apply map_fold_empty. Qed.

Lemma sum_values_count_key (k : str) (counts : gmap str nat) :
  sum_values (count_key k counts) = S (sum_values counts).
Proof.
  unfold count_key. destruct (counts !! k) as [n|] eqn:Hk; simpl.
  - rewrite <- (insert_delete_id counts k n Hk) at 2.
    rewrite <- insert_delete_eq.
    rewrite !sum_values_insert_fresh by apply lookup_delete_eq. lia.
  - by rewrite sum_values_insert_fresh.
Qed.

Lemma count_key_lookup (k c : str) (counts : gmap str nat) :
  count_key k counts !! c
  = if decide (k = c) then Some (S (default 0%nat (counts !! c)))
    else counts !! c.
Proof.
  unfold count_key. rewrite lookup_insert. destruct (decide (k = c)); by subst.
Qed.

Section Counting.
Variable key : question -> str.

Lemma count_all_sum counts qs :
  sum_values (count_all key counts qs) = (sum_values counts + length qs)%nat.
Proof.
  revert counts. induction qs as [|q qs IH]; intros counts; simpl; [lia|].
  unfold count_all in *. simpl. rewrite IH, sum_values_count_key. lia.
Qed.

Lemma count_all_lookup counts qs c :
  count_all key counts qs !! c
  = match with_key key c qs with
    | [] => counts !! c
    | _ => Some (default 0%nat (counts !! c) + length (with_key key c qs))%nat
    end.
Proof.
  revert counts. induction qs as [|q qs IH]; intros counts; [done|].
  unfold count_all, with_key in *. simpl. rewrite IH, count_key_lookup.
  case_bool_decide as Hq.
  - rewrite decide_True by done. simpl.
    destruct (List.filter _ qs); simpl; f_equal; lia.
  - rewrite decide_False by done. done.
Qed.

End Counting.

(** X25.  The counts per question type add up to the number of questions, and
    each count is the number of questions of that type. *)
Theorem question_types_distribution_counts (d : data) :
  sum_values (question_types_distribution d) = total_questions d
  /\ (forall t,
        default 0%nat (question_types_distribution d !! t)
        = length (List.filter (fun q => bool_decide (question_type q = t))
                    (questions d))).
Proof.
  split.
  - unfold question_types_distribution, total_questions.
    pose proof (count_all_sum question_type ∅ (questions d)) as Hsum.
    unfold count_all in Hsum. rewrite Hsum, sum_values_empty. done.
  - intros t.
    pose proof (count_all_lookup question_type ∅ (questions d) t) as Hc.
    unfold count_all, with_key in Hc. unfold question_types_distribution.
    rewrite Hc. by destruct (List.filter _ _).
Qed.

End Statistics.

(** ** Conversion of the raw question file *)

Section Conversion.
Import Survey_database Convert_data.

Lemma converted_lookup input i :
  questions (converted_data input) !! i = convert_item i <$> input !! i.
Proof. unfold converted_data. simpl. apply list_lookup_imap. Qed.

Lemma foldl_max_elem (i : Z) (ids : list Z) :
  foldl Z.max i ids = i \/ foldl Z.max i ids ∈ ids.
Proof.
  revert i. induction ids as [|j ids IH]; intros i; simpl; [by left|].
  destruct (IH (Z.max i j)) as [Hm|Hm].
  - rewrite Hm. destruct (Z.max_spec i j) as [[_ ->]|[_ ->]]; [right; left|by left].
  - right. by right.
Qed.

Lemma converted_ids input :
  map id (questions (converted_data input))
  = map (fun i => (Z.of_nat i + 1)%Z) (seq 0 (length input)).
Proof.
  apply list_eq. intros i.
  change (map id (questions (converted_data input)))
    with (id <$> questions (converted_data input)).
  change (map (fun i => (Z.of_nat i + 1)%Z) (seq 0 (length input)))
    with ((fun i => (Z.of_nat i + 1)%Z) <$> seq 0 (length input)).
  rewrite !list_lookup_fmap, converted_lookup.
  destruct (input !! i) as [item|] eqn:Hi; simpl.
  - rewrite lookup_seq_lt by (by eapply lookup_lt_Some). done.
  - rewrite lookup_seq_ge by (by apply lookup_ge_None). done.
Qed.

(** X26.  The converted questions are numbered 1, 2, ... in the order of the
    input, so the question made from the item at position [i] is the one
    found under the id [i + 1]; each starts unused, with difficulty 2. *)
Theorem converted_data_lookup (input : list raw_item) :
  map id (questions (converted_data input))
  = map (fun i => (Z.of_nat i + 1)%Z) (seq 0 (length input))
  /\ (forall i item, input !! i = Some item ->
        get_question_by_id (Z.of_nat i + 1) (converted_data input)
        = Some (convert_item i item))
  /\ Forall (fun q => usage_count q = Some 0%Z /\ difficulty q = Some 2%Q)
       (questions (converted_data input)).
Proof.
  split; [|split].
  - apply converted_ids.
  - intros i item Hi. unfold get_question_by_id, find_question.
    assert (Hfind : list_find (fun q => id q = (Z.of_nat i + 1)%Z)
                      (questions (converted_data input))
                    = Some (i, convert_item i item)).
    { apply list_find_Some. split; [|split; [done|]].
      - by rewrite converted_lookup, Hi.
      - intros j q Hj Hlt. rewrite converted_lookup in Hj.
        destruct (input !! j) as [item'|]; [|done].
        injection Hj as <-. simpl. lia. }
    by rewrite Hfind.
  - apply Forall_forall. intros q Hq.
    apply list_elem_of_lookup in Hq as [i Hi].
    rewrite converted_lookup in Hi.
    destruct (input !! i) as [item|]; [|done]. by injection Hi as <-.
Qed.

(** X27.  A question added to a converted bank of [n] questions gets the id
    [n + 1]. *)
Theorem add_question_after_conversion (input : list raw_item)
    (question_data : question_arg) :
  (add_question question_data (converted_data input)).1
  = (Z.of_nat (length input) + 1)%Z.
Proof.
  assert (Hid : (add_question question_data (converted_data input)).1
                = next_id (map id (questions (converted_data input)))).
  { destruct question_data as [q|i]; simpl; [done|].
    by destruct (imap convert_item input !! i). }
  rewrite Hid. clear Hid.
  rewrite converted_ids.
  set (ids := map _ (seq 0 (length input))).
  assert (Hmem : forall z, z ∈ ids <-> (1 <= z <= Z.of_nat (length input))%Z).
  { intros z. subst ids.
    change (map (fun i => (Z.of_nat i + 1)%Z) (seq 0 (length input)))
      with ((fun i => (Z.of_nat i + 1)%Z) <$> seq 0 (length input)).
    rewrite list_elem_of_fmap. split.
    - intros (i & -> & Hi). apply elem_of_seq in Hi. lia.
    - intros Hz. exists (Z.to_nat (z - 1)). split; [lia|].
      apply elem_of_seq. lia. }
  pose proof (next_id_greater ids) as Hgt. rewrite Forall_forall in Hgt.
  clearbody ids. destruct ids as [|i rest].
  - destruct (length input) as [|n]; [done|].
    exfalso. pose proof (proj2 (Hmem 1%Z) ltac:(lia)) as Hone.
    by apply elem_of_nil in Hone.
  - assert (Hmax : (1 <= foldl Z.max i rest <= Z.of_nat (length input))%Z).
    { destruct (foldl_max_elem i rest) as [Hm|Hm].
      - rewrite Hm. apply Hmem. left.
      - apply Hmem. by right. }
    assert (Hn : (Z.of_nat (length input) < next_id (i :: rest))%Z).
    { apply Hgt, Hmem. lia. }
    simpl in *. lia.
Qed.

(** X28.  The conversion answers [False] exactly when the input has fewer than
    three items, because the three samples cannot be shown; the data are
    written all the same, one question per item. *)
Theorem convert_question_data_result (input : list raw_item) :
  ((convert_question_data input).2 = true <-> (3 <= length input)%nat)
  /\ length (questions (convert_question_data input).1) = length input.
Proof.
  split.
  - unfold convert_question_data, show_samples. simpl.
    destruct input as [|a [|b [|c rest]]]; simpl; split; (done || lia).
  - unfold convert_question_data, converted_data. simpl. apply length_imap.
Qed.

End Conversion.

(** ** Synonym folding and difficulty factors *)

Section Folding.
Import Part4.

Lemma synonym_values_not_keys :
  map_Forall (fun _ v => synonym_map !! v = None) synonym_map.
Proof. refine (bool_decide_unpack _ _). vm_compute. exact I. Qed.

Lemma zh_values_not_keys :
  map_Forall (fun _ v => zh_map !! v = None) zh_map.
Proof. refine (bool_decide_unpack _ _). vm_compute. exact I. Qed.

Lemma get_or_self_not_key (d : gmap str str) w :
  map_Forall (fun _ v => d !! v = None) d ->
  d !! get_or_self d w = None.
Proof.
  intros Hd. unfold get_or_self. destruct (d !! w) as [v|] eqn:Hw; simpl.
  - by apply (Hd w v).
  - done.
Qed.

(** X2.  No word of the synonym tables survives the folding: the tokens of an
    English key are never keys of [synonym_map], and folding a folded word
    again, in either table, changes nothing. *)
Theorem synonym_folding_canonical :
  (forall doc, Forall (fun t => synonym_map !! t = None) (en_tokens doc))
  /\ (forall w, get_or_self synonym_map (get_or_self synonym_map w)
                = get_or_self synonym_map w)
  /\ (forall w, get_or_self zh_map (get_or_self zh_map w) = get_or_self zh_map w).
Proof.
  split; [|split].
  - intros doc. induction doc as [|t doc IH]; simpl; [constructor|].
    destruct (_ || _); [done|]. constructor; [|done].
    apply get_or_self_not_key, synonym_values_not_keys.
  - intros w. unfold get_or_self at 1.
    by rewrite (get_or_self_not_key _ w synonym_values_not_keys).
  - intros w. unfold get_or_self at 1.
    by rewrite (get_or_self_not_key _ w zh_values_not_keys).
Qed.

End Folding.

Section Difficulty_factors.
Context {unicode : Unicode}.
Import Part4.

(** X3.  The type factor alone already decides a lower bound: an open
    question scores at least 3, a single or multiple choice question at
    least 2. *)
Theorem calculate_difficulty_type_factor (row : series) :
  (contains (u "open_ended") (lower (to_str (s_question_type row))) = true
   -> (3 <= calculate_difficulty row)%Z)
  /\ (contains (u "multiple_choice") (lower (to_str (s_question_type row))) = true
      \/ contains (u "single_choice") (lower (to_str (s_question_type row))) = true
      -> (2 <= calculate_difficulty row)%Z).
Proof.
  unfold calculate_difficulty. split.
  - intros ->.
    repeat match goal with
           | |- context [if ?b then _ else _] => destruct b
           | |- context [match ?l with [] => _ | _ :: _ => _ end] => destruct l
           end; lia.
  - intros Hc.
    assert (Hor : contains (u "multiple_choice") (lower (to_str (s_question_type row)))
                  || contains (u "single_choice") (lower (to_str (s_question_type row)))
                  = true).
    { apply orb_true_iff. exact Hc. }
    rewrite Hor.
    repeat match goal with
           | |- context [if ?b then _ else _] => destruct b
           | |- context [match ?l with [] => _ | _ :: _ => _ end] => destruct l
           end; lia.
Qed.

End Difficulty_factors.

Section Difficulty_closed.
Import Part4.
Local Existing Instance ascii_unicode.

Lemma calculate_difficulty_type_factor_witness :
  (3 <= calculate_difficulty
          {| s_question_text := VStr (u "Any comments?");
             s_question_type := VStr (u "Open_Ended");
             s_options_text := VNaN;
             s_detected_lang := VStr (u "en") |})%Z
  /\ (2 <= calculate_difficulty
             {| s_question_text := VStr (u "Pick one");
                s_question_type := VStr (u "single_choice");
                s_options_text := VStr (u "a/b");
                s_detected_lang := VStr (u "en") |})%Z.
Proof.
  split.
  - apply (proj1 (calculate_difficulty_type_factor _)). reflexivity.
  - apply (proj2 (calculate_difficulty_type_factor _)). right. reflexivity.
Defined.

End Difficulty_closed.

(** ** The processed tables *)

Section Pipeline.
Context {unicode : Unicode} {nlp : Nlp}.
Import Part4.

Lemma detect_lang_cases text :
  detect_lang text = u "en" \/ detect_lang text = u "zh".
Proof. unfold detect_lang. destruct (existsb _ _); [by right|by left]. Qed.

Lemma clean_and_detect_row data x :
  x ∈ clean_and_detect data ->
  (2 < length (question_text x))%nat
  /\ stripped (question_text x)
  /\ detected_lang x = detect_lang (VStr (question_text x)).
Proof.
  unfold clean_and_detect. intros Hx.
  apply list_elem_of_fmap in Hx as ([t raw] & -> & Hin).
  apply list_elem_of_In, filter_In in Hin as [Hin Hlen].
  apply in_map_iff in Hin as (raw' & [= <- <-] & _).
  simpl in *. apply Nat.ltb_lt in Hlen. split; [done|]. split; [|done].
  destruct (raw_question_text raw') as [s| |]; simpl in *; [|lia|lia].
  apply strip_stripped.
Qed.

Lemma processed_row data x :
  x ∈ map set_difficulty (deduplicate (clean_and_detect data)) -> processed x.
Proof.
  intros Hx. apply list_elem_of_fmap in Hx as (y & -> & Hy).
  unfold deduplicate, drop_duplicates in Hy.
  eapply elem_of_sublist in Hy; [|apply drop_duplicates_go_sublist].
  apply list_elem_of_fmap in Hy as (z & -> & Hz).
  apply clean_and_detect_row in Hz as (Hlen & Hstrip & Hlang).
  unfold processed. simpl. repeat split; try done.
  - apply Hstrip.
  - apply Hstrip.
  - unfold calculate_difficulty. lia.
  - unfold calculate_difficulty. lia.
Qed.

Lemma split_by_language (df : list row) :
  Forall (fun x => detected_lang x = u "en" \/ detected_lang x = u "zh") df ->
  List.filter (fun x => bool_decide (detected_lang x = u "en")) df
  ++ List.filter (fun x => bool_decide (detected_lang x = u "zh")) df ≡ₚ df.
Proof.
  induction 1 as [|x df [Hx|Hx] _ IH]; simpl; [done| |].
  - rewrite Hx. simpl. by rewrite IH.
  - rewrite Hx. simpl. rewrite <- IH at 3. by rewrite Permutation_middle.
Qed.

(** X4.  Every row of the English and of the Chinese table has a cleaned text
    of more than two characters without a space at either end, the
    language detected from that text, the key computed from its text and
    options, and a difficulty between 1 and 5 computed from its cells; the
    rows of the first table are the ones detected as [en], those of the
    second the ones detected as [zh]. *)
Theorem load_and_process_data_rows (data : list raw_question) :
  Forall (fun x => processed x /\ detected_lang x = u "en")
    (load_and_process_data data).1
  /\ Forall (fun x => processed x /\ detected_lang x = u "zh")
       (load_and_process_data data).2.
Proof.
  unfold load_and_process_data. simpl. split.
  - apply Forall_forall. intros x Hx.
    apply list_elem_of_In, filter_In in Hx as [Hx Hlang].
    apply bool_decide_eq_true_1 in Hlang. apply list_elem_of_In in Hx.
    split; [by eapply processed_row|done].
  - apply Forall_forall. intros x Hx.
    apply list_elem_of_In, filter_In in Hx as [Hx Hlang].
    apply bool_decide_eq_true_1 in Hlang. apply list_elem_of_In in Hx.
    split; [by eapply processed_row|done].
Qed.

(** X5.  The two tables together hold every de-duplicated row once: no row is
    lost or filed twice by the split, no key occurs twice across the two
    tables, and there are at most as many rows as raw questions. *)
Theorem load_and_process_data_split (data : list raw_question) :
  (load_and_process_data data).1 ++ (load_and_process_data data).2
    ≡ₚ map set_difficulty (deduplicate (clean_and_detect data))
  /\ NoDup (map dedup_key
              ((load_and_process_data data).1 ++ (load_and_process_data data).2))
  /\ (length (load_and_process_data data).1
      + length (load_and_process_data data).2 <= length data)%nat.
Proof.
  assert (Hperm : (load_and_process_data data).1 ++ (load_and_process_data data).2
                    ≡ₚ map set_difficulty (deduplicate (clean_and_detect data))).
  { unfold load_and_process_data. simpl. apply split_by_language.
    apply Forall_forall. intros x Hx. apply processed_row in Hx.
    destruct Hx as (_ & _ & -> & _). apply detect_lang_cases. }
  split; [exact Hperm|]. split.
  - change (NoDup (dedup_key <$>
              (load_and_process_data data).1 ++ (load_and_process_data data).2)).
    rewrite Hperm.
    change (NoDup (map dedup_key
                     (map set_difficulty (deduplicate (clean_and_detect data))))).
    rewrite map_map. simpl.
    apply drop_duplicates_go_NoDup.
  - rewrite <- length_app, Hperm, length_map.
    unfold deduplicate, drop_duplicates.
    etrans; [apply sublist_length, drop_duplicates_go_sublist|].
    rewrite length_map. unfold clean_and_detect. rewrite length_map.
    etrans; [apply filter_length_le|]. by rewrite length_map.
Qed.

End Pipeline.

(** ** The query loop *)

Section Query_loop.
Context {unicode : Unicode} {nlp : Nlp} {sklearn : Sklearn}.
Import Part4.

Lemma query_loop_exit df lang sw corpus target before ex after :
  is_exit ex ->
  query_loop df lang sw corpus target (before ++ ex :: after)
  = query_loop df lang sw corpus target (before ++ [ex])
  /\ (query_loop df lang sw corpus target (before ++ ex :: after)).2 = SysExit 0.
Proof.
  intros Hex. unfold is_exit in Hex.
  induction before as [|req before [IH1 IH2]]; simpl.
  - rewrite !decide_True by done. done.
  - destruct (decide _); [done|]. destruct (decide _); [done|].
    rewrite IH1 in IH2 |- *. revert IH2.
    destruct (query_loop _ _ _ _ _ (before ++ [ex])) as [printed e].
    simpl. by intros ->.
Qed.

(** X6.  Once a line reads [exit] (in any case, with spaces around it), what is
    typed after it is never read, and the run ends with exit status 0
    unless the index could not be built. *)
Theorem generate_survey_exit (df : list row) (lang : str) (target_count : Z)
    (before after : list str) (ex : str) :
  is_exit ex ->
  generate_survey df lang target_count (before ++ ex :: after)
  = generate_survey df lang target_count (before ++ [ex])
  /\ ((generate_survey df lang target_count (before ++ ex :: after)).2
      = SysExit 0
      \/ (generate_survey df lang target_count (before ++ ex :: after)).2
         = NotEnoughData).
Proof.
  intros Hex. unfold generate_survey.
  destruct (fit_transform _ _) as [|sw corpus]; [by split; [|right]|].
  destruct (query_loop_exit df lang sw corpus target_count before ex after Hex)
    as [Heq Hend].
  split; [done|by left].
Qed.

Lemma scan_results_numbers df sim target idxs count seen :
  map hit_number (scan_results df sim target idxs count seen)
  = map (fun i => (count + Z.of_nat i)%Z)
      (seq 1 (length (scan_results df sim target idxs count seen))).
Proof.
  revert count seen. induction idxs as [|idx idxs IH]; intros count seen;
    simpl; [done|].
  destruct (count >=? target)%Z; [done|].
  destruct (sim !! idx) as [score|]; [|apply IH].
  destruct (df !! idx) as [x|]; [|apply IH].
  destruct (negb _); [|apply IH].
  destruct (decide _); [apply IH|].
  simpl. f_equal; [lia..|].
  rewrite IH. rewrite <- (seq_shift _ 1), map_map.
  apply map_ext. intros i. lia.
Qed.

Lemma strongly_sorted_snoc {A} (R : relation A) l x :
  StronglySorted R l -> Forall (fun y => R y x) l -> StronglySorted R (l ++ [x]).
Proof.
  induction 1 as [|y l Hl IH Hy]; intros Hx; simpl.
  - repeat constructor.
  - apply Forall_cons in Hx as [Hyx Hx]. constructor; [by apply IH|].
    apply Forall_app. split; [done|by constructor].
Qed.

Lemma strongly_sorted_rev {A} (R : relation A) l :
  StronglySorted R l -> StronglySorted (flip R) (rev l).
Proof.
  induction 1 as [|x l Hl IH Hx]; simpl; [constructor|].
  apply strongly_sorted_snoc; [done|].
  apply Forall_forall. intros y Hy. rewrite Forall_forall in Hx.
  apply Hx. apply list_elem_of_In. apply in_rev. by apply list_elem_of_In.
Qed.

Lemma argsort_insert_sorted sim i l :
  StronglySorted (fun a b => (score_at sim a <= score_at sim b)%Q) l ->
  StronglySorted (fun a b => (score_at sim a <= score_at sim b)%Q)
    (argsort_insert sim i l).
Proof.
  induction 1 as [|j l Hl IH Hj]; simpl.
  - repeat constructor.
  - fold (score_at sim i). fold (score_at sim j).
    destruct (Qle_bool (score_at sim i) (score_at sim j)) eqn:Hle.
    + apply Qle_bool_iff in Hle. constructor; [by constructor|].
      constructor; [done|].
      eapply Forall_impl; [exact Hj|]. intros k Hk. simpl in *.
      by eapply Qle_trans.
    + assert (Hlt : (score_at sim j < score_at sim i)%Q).
      { apply Qnot_le_lt. intros Hc. apply Qle_bool_iff in Hc. congruence. }
      constructor; [done|].
      apply Forall_forall. intros k Hk.
      rewrite argsort_insert_perm in Hk. apply elem_of_cons in Hk as [->|Hk].
      * by apply Qlt_le_weak.
      * rewrite Forall_forall in Hj. by apply Hj.
Qed.

Lemma argsort_sorted sim :
  StronglySorted (fun a b => (score_at sim a <= score_at sim b)%Q) (argsort sim).
Proof.
  unfold argsort. induction (seq 0 (length sim)) as [|i l IH]; simpl.
  - constructor.
  - by apply argsort_insert_sorted.
Qed.

(** The loop keeps the order of the positions it is given, and every hit
    shows a row of the table. *)
Lemma scan_results_order df sim target idxs count seen :
  StronglySorted (fun a b => (score_at sim b <= score_at sim a)%Q) idxs ->
  StronglySorted hit_ge (scan_results df sim target idxs count seen)
  /\ Forall (fun h => exists idx, idx ∈ idxs
                       /\ sim !! idx = Some (hit_score h))
       (scan_results df sim target idxs count seen)
  /\ Forall (hit_of_row df sim) (scan_results df sim target idxs count seen).
Proof.
  intros Hsorted. revert count seen.
  induction Hsorted as [|idx idxs Hs IH Hidx]; intros count seen; simpl.
  - repeat split; constructor.
  - assert (Hrest : forall count seen,
              StronglySorted hit_ge (scan_results df sim target idxs count seen)
              /\ Forall (fun h => exists i, i ∈ idx :: idxs
                                   /\ sim !! i = Some (hit_score h))
                   (scan_results df sim target idxs count seen)
              /\ Forall (hit_of_row df sim)
                   (scan_results df sim target idxs count seen)).
    { intros c sn. destruct (IH c sn) as (H1 & H2 & H3).
      repeat split; [done| |done].
      eapply Forall_impl; [exact H2|]. intros h (i & Hi & Hsc).
      exists i. split; [by right|done]. }
    destruct (count >=? target)%Z; [repeat split; constructor|].
    destruct (sim !! idx) as [score|] eqn:Hscore; [|apply Hrest].
    destruct (df !! idx) as [x|] eqn:Hx; [|apply Hrest].
    destruct (negb _); [|apply Hrest].
    destruct (decide _); [apply Hrest|].
    destruct (IH (count + 1)%Z ({[question_text x]} ∪ seen)) as (H1 & H2 & H3).
    repeat split.
    + constructor; [done|].
      eapply Forall_impl; [exact H2|]. intros h (i & Hi & Hsc).
      unfold hit_ge. simpl. rewrite Forall_forall in Hidx.
      specialize (Hidx i Hi). unfold score_at in Hidx.
      by rewrite Hsc, Hscore in Hidx.
    + constructor.
      * exists idx. split; [left|done].
      * eapply Forall_impl; [exact H2|]. intros h (i & Hi & Hsc).
        exists i. split; [by right|done].
    + constructor; [|done]. by exists idx, x.
Qed.

Lemma query_ranked df lang sw corpus target req :
  let res := query df lang sw corpus target req in
  StronglySorted hit_ge res
  /\ (exists sim, Forall (hit_of_row df sim) res)
  /\ map hit_number res = map Z.of_nat (seq 1 (length res)).
Proof.
  unfold query.
  set (sim := map _ (seq 0 (length corpus))).
  destruct (scan_results_order df sim target (rev (argsort sim)) 0 ∅)
    as (Hs & _ & Hrows).
  { apply (strongly_sorted_rev _ _ (argsort_sorted sim)). }
  split; [done|]. split; [by exists sim|].
  rewrite scan_results_numbers. apply map_ext. intros i. lia.
Qed.

(** X7.  Every list of results printed by [generate_survey] is in descending
    order of similarity, each of its entries shows the text, difficulty
    and options of one row of the table, and its entries are numbered 1,
    2, 3, ... *)
Theorem generate_survey_ranked (df : list row) (lang : str) (target_count : Z)
    (lines : list str) :
  Forall (fun res =>
            StronglySorted hit_ge res
            /\ (exists sim, Forall (hit_of_row df sim) res)
            /\ map hit_number res = map Z.of_nat (seq 1 (length res)))
    (generate_survey df lang target_count lines).1.
Proof.
  unfold generate_survey.
  destruct (fit_transform _ _) as [|sw corpus]; [constructor|].
  induction lines as [|req lines IH]; simpl; [constructor|].
  destruct (decide _); [constructor|].
  destruct (decide _); [done|].
  destruct (query_loop _ _ _ _ _ lines) as [printed e]. simpl in *.
  constructor; [apply query_ranked|done].
Qed.

End Query_loop.

Section Query_loop_closed.
Import Part4.
Local Existing Instance ascii_unicode.
Local Existing Instance Toy.nlp.
Local Existing Instance Toy.sklearn.

Lemma generate_survey_exit_witness :
  generate_survey [Toy.doc_row "Hotel room" "property room"] (u "en") 10
    ([u "room"] ++ u " EXIT " :: [u "hotel"])
  = generate_survey [Toy.doc_row "Hotel room" "property room"] (u "en") 10
      ([u "room"] ++ [u " EXIT "]).
Proof.
  apply (generate_survey_exit [Toy.doc_row "Hotel room" "property room"]
           (u "en") 10 [u "room"] [u "hotel"] (u " EXIT ")).
  reflexivity.
Defined.

End Query_loop_closed.

(** ** The two language tests agree on what is Chinese *)

Section Languages_agree.
Import Part4 Q5_v1.

(** X9.  A text that [detect_lang] files as Chinese is Chinese for
    [is_chinese] too. *)
Theorem detect_lang_zh_is_chinese (s : str) :
  detect_lang (VStr s) = u "zh" -> is_chinese (VStr s) = true.
Proof.
  unfold detect_lang, is_chinese, is_han_9fa5, is_han_9fff. simpl.
  destruct (existsb (in_range 0x4e00 0x9fa5) s) eqn:Hzh; [|done].
  intros _. apply existsb_in_range in Hzh as (c & Hc & Hrange).
  apply existsb_in_range. exists c. split; [done|lia].
Qed.

Lemma detect_lang_zh_is_chinese_witness :
  is_chinese (VStr [0x9152; 0x5e97; 0x3f]) = true.
Proof. apply detect_lang_zh_is_chinese. reflexivity. Defined.

End Languages_agree.

(** ** Scores *)

Section Scores.
Context {unicode : Unicode} {sklearn : Sklearn}.
Import Survey_database Q5_v1.

Lemma foldl_Qmax_ge (s : Q) (scores : list Q) :
  (s <= foldl Qmax s scores)%Q
  /\ Forall (fun x => (x <= foldl Qmax s scores)%Q) scores.
Proof.
  revert s. induction scores as [|x scores IH]; intros s; simpl.
  - split; [apply Qle_refl|constructor].
  - destruct (IH (Qmax s x)) as [Hm Hall]. split.
    + eapply Qle_trans; [apply Q.le_max_l|exact Hm].
    + constructor; [|done]. eapply Qle_trans; [apply Q.le_max_r|exact Hm].
Qed.

Lemma max_score_ge (scores : list Q) :
  Forall (fun x => (x <= max_score scores)%Q) scores.
Proof.
  destruct scores as [|s scores]; simpl; [constructor|].
  destruct (foldl_Qmax_ge s scores) as [Hs Hall]. by constructor.
Qed.

Lemma normalize_scores_range (scores : list Q) :
  Forall (fun s => (0 <= s)%Q) scores ->
  length (normalize_scores scores) = length scores
  /\ Forall (fun s => (0 <= s)%Q /\ (s <= 1)%Q) (normalize_scores scores).
Proof.
  intros Hpos. unfold normalize_scores.
  pose proof (max_score_ge scores) as Hmax.
  destruct (Qle_bool (max_score scores) 0) eqn:Hle; simpl.
  - split; [done|]. apply Qle_bool_iff in Hle.
    apply Forall_forall. intros s Hs.
    rewrite Forall_forall in Hpos, Hmax. split; [by apply Hpos|].
    eapply Qle_trans; [by apply Hmax|]. eapply Qle_trans; [exact Hle|done].
  - assert (Hlt : (0 < max_score scores)%Q).
    { apply Qnot_le_lt. intros Hc. apply Qle_bool_iff in Hc. congruence. }
    split; [by rewrite length_map|].
    apply Forall_forall. intros y Hy.
    apply list_elem_of_fmap in Hy as (s & -> & Hs).
    rewrite Forall_forall in Hpos, Hmax. split.
    + apply Qle_shift_div_l; [done|]. rewrite Qmult_0_l. by apply Hpos.
    + apply Qle_shift_div_r; [done|]. rewrite Qmult_1_l. by apply Hmax.
Qed.

(** X10.  [keyword_score] gives one score per document, each between 0 and 1. *)
Theorem keyword_score_range (query : str) (docs : list str) :
  length (keyword_score query docs) = length docs
  /\ Forall (fun s => (0 <= s)%Q /\ (s <= 1)%Q) (keyword_score query docs).
Proof.
  unfold keyword_score.
  match goal with
  | |- context [normalize_scores ?l] =>
      destruct (normalize_scores_range l) as [Hlen Hrange]
  end.
  - apply Forall_forall. intros s Hs.
    apply list_elem_of_fmap in Hs as (d & -> & _).
    destruct (strip (lower query)); [done|].
    change 0%Q with (inject_Z 0). rewrite <- Zle_Qle. lia.
  - rewrite Hlen, length_map. done.
Qed.

(** X11.  The text-and-tag scoring used outside English gives one score per
    question, each between 0 and 1. *)
Theorem text_tag_scores_range (topic : str) (questions : list question) :
  length (text_tag_scores topic questions) = length questions
  /\ Forall (fun s => (0 <= s)%Q /\ (s <= 1)%Q) (text_tag_scores topic questions).
Proof.
  unfold text_tag_scores.
  match goal with
  | |- context [normalize_scores ?l] =>
      destruct (normalize_scores_range l) as [Hlen Hrange]
  end.
  - apply Forall_forall. intros s Hs.
    apply list_elem_of_fmap in Hs as (q & -> & _).
    destruct (_ && _); destruct (_ && _); done.
  - rewrite Hlen, length_map. done.
Qed.

End Scores.

(** ** Candidates, coverage and grouping *)

Section Assembly.
Context {unicode : Unicode} {sklearn : Sklearn}.
Import Survey_database Q5_v1.

Lemma sort_desc_elem p pairs : p ∈ sort_desc pairs <-> p ∈ pairs.
Proof. by rewrite sort_desc_perm. Qed.

Lemma rank_elem req questions p : p ∈ rank req questions -> p.1 ∈ questions.
Proof.
  unfold rank. rewrite sort_desc_elem. destruct p as [q s].
  intros Hp. by apply elem_of_zip_l in Hp.
Qed.

Lemma filter_subset {A} (f : A -> bool) (l : list A) x :
  x ∈ List.filter f l -> x ∈ l.
Proof. intros Hx. apply list_elem_of_In, filter_In in Hx as [Hx _].
       by apply list_elem_of_In. Qed.

Lemma candidates_from_bank req db p :
  p ∈ candidates req db -> p.1 ∈ questions db.
Proof.
  unfold candidates. intros Hp. apply rank_elem in Hp.
  unfold get_all_questions in Hp.
  assert (Hc : p.1 ∈ category_filter (map lower (categories req))
                       (language_filter (language req) (questions db))).
  { unfold difficulty_filter in Hp.
    destruct (difficulty_range req) as [|lo [|hi rest]]; [done|done|].
    by apply filter_subset in Hp. }
  assert (Hl : p.1 ∈ language_filter (language req) (questions db)).
  { unfold category_filter in Hc.
    destruct (map lower (categories req)); [done|]. by apply filter_subset in Hc. }
  unfold language_filter in Hl.
  destruct (decide _); [by apply filter_subset in Hl|].
  destruct (decide _); [by apply filter_subset in Hl|done].
Qed.

(** X12.  Every ranked candidate is a question of the bank that passes the
    three filters of the requirements: language, category (when
    categories are requested) and difficulty range (when one is given). *)
Theorem candidates_filtered (req : requirements) (db : data) :
  Forall (fun p : pair =>
            p.1 ∈ questions db
            /\ language_ok (language req) p.1
            /\ (categories req <> [] ->
                lower (category p.1) ∈ map lower (categories req))
            /\ difficulty_ok (difficulty_range req) p.1)
    (candidates req db).
Proof.
  apply Forall_forall. intros p Hp. unfold candidates in Hp.
  apply rank_elem in Hp. unfold get_all_questions in Hp.
  assert (Hdiff : p.1 ∈ category_filter (map lower (categories req))
                          (language_filter (language req) (questions db))
                  /\ difficulty_ok (difficulty_range req) p.1).
  { unfold difficulty_filter, difficulty_ok in *.
    destruct (difficulty_range req) as [|lo [|hi rest]]; [done|done|].
    apply list_elem_of_In, filter_In in Hp as [Hp Hd].
    split; [by apply list_elem_of_In|].
    destruct (difficulty p.1) as [d|]; [|done].
    apply andb_true_iff in Hd as [Hlo Hhi]. apply Qle_bool_iff in Hlo, Hhi.
    by exists d. }
  destruct Hdiff as [Hcat Hdiff].
  assert (Hlang : p.1 ∈ language_filter (language req) (questions db)
                  /\ (categories req <> [] ->
                      lower (category p.1) ∈ map lower (categories req))).
  { unfold category_filter in Hcat.
    destruct (categories req) as [|c cs]; [done|]. simpl in Hcat.
    apply list_elem_of_In, filter_In in Hcat as [Hcat Hc].
    split; [by apply list_elem_of_In|]. intros _.
    by apply bool_decide_eq_true_1 in Hc. }
  destruct Hlang as [Hlang Hcats].
  assert (Hbank : p.1 ∈ questions db /\ language_ok (language req) p.1).
  { unfold language_filter, language_ok in *.
    destruct (decide (language req = Some (u "zh"))) as [Hzh|Hzh].
    - apply list_elem_of_In, filter_In in Hlang as [Hlang Hc].
      split; [by apply list_elem_of_In|]. split; [done|].
      intros Hen. rewrite Hzh in Hen. discriminate Hen.
    - destruct (decide (language req = Some (u "en"))) as [Hen|Hen].
      + apply list_elem_of_In, filter_In in Hlang as [Hlang Hc].
        split; [by apply list_elem_of_In|]. split; [done|].
        intros _. by apply negb_true_iff in Hc.
      + done. }
  destruct Hbank as [Hbank Hok]. done.
Qed.

Lemma build_cat_map_from (cat_map : gmap str (list pair)) pairs rc :
  default [] (foldl (fun cat_map p =>
                       let cat := lower (category p.1) in
                       <[cat := default [] (cat_map !! cat) ++ [p]]> cat_map)
                cat_map pairs !! rc)
  = default [] (cat_map !! rc) ++ of_category rc pairs.
Proof.
  revert cat_map. induction pairs as [|p pairs IH]; intros cat_map; simpl.
  - by rewrite app_nil_r.
  - rewrite IH. unfold of_category. simpl. case_bool_decide as Hp.
    + rewrite Hp, lookup_insert_eq. simpl. by rewrite <- app_assoc.
    + by rewrite lookup_insert_ne.
Qed.

Lemma build_cat_map_lookup pairs rc :
  default [] (build_cat_map pairs !! rc) = of_category rc pairs.
Proof. unfold build_cat_map. by rewrite build_cat_map_from. Qed.

Lemma select_used p rc sel : used_ids sel ⊆ used_ids (select p rc sel).
Proof. unfold select. simpl. set_solver. Qed.

Lemma cover_category_used cat_map sel rc :
  used_ids sel ⊆ used_ids (cover_category cat_map sel rc).
Proof.
  unfold cover_category. destruct (default [] _) as [|chosen rest]; [done|].
  destruct (decide _); [done|apply select_used].
Qed.

Lemma cover_missing_used full_bank sel rc :
  used_ids sel ⊆ used_ids (cover_missing full_bank sel rc).
Proof.
  unfold cover_missing. destruct (List.find _ _); [apply select_used|done].
Qed.

Lemma foldl_used (step : selection -> str -> selection) cats sel :
  (forall sel rc, used_ids sel ⊆ used_ids (step sel rc)) ->
  used_ids sel ⊆ used_ids (foldl step sel cats).
Proof.
  intros Hstep. revert sel. induction cats as [|rc cats IH]; intros sel;
    simpl; [done|]. etrans; [apply Hstep|apply IH].
Qed.

Lemma fill_by_rank_used qcount pairs sel :
  used_ids sel ⊆ used_ids (fill_by_rank qcount pairs sel).
Proof.
  revert sel. induction pairs as [|p pairs IH]; intros sel; simpl; [done|].
  destruct (_ >=? _)%Z; [done|]. destruct (decide _); [apply IH|].
  etrans; [apply (select_used p None)|apply IH].
Qed.

Lemma cover_category_covers cat_map cats sel rc chosen rest :
  rc ∈ cats -> default [] (cat_map !! rc) = chosen :: rest ->
  id chosen.1 ∈ used_ids (foldl (cover_category cat_map) sel cats).
Proof.
  intros Hrc Hchosen. revert sel.
  induction cats as [|c cats IH]; intros sel; [by apply elem_of_nil in Hrc|].
  simpl. apply elem_of_cons in Hrc as [<-|Hrc]; [|by apply IH].
  apply (foldl_used (cover_category cat_map) cats); [apply cover_category_used|].
  unfold cover_category. rewrite Hchosen.
  destruct (decide _); [done|]. unfold select. simpl. set_solver.
Qed.

(** X13.  For every requested category that has a candidate, the best-ranked
    candidate of that category is in the output. *)
Theorem generate_questionnaire_covers (req : requirements) (db : data)
    (rc : str) (chosen : pair) (rest : list pair) :
  rc ∈ map lower (categories req) ->
  of_category rc (candidates req db) = chosen :: rest ->
  id chosen.1 ∈ question_ids (generate_questionnaire req db).
Proof.
  intros Hrc Hchosen. rewrite generate_questionnaire_ids.
  destruct (select_pairs_consistent req (get_all_questions db) (candidates req db))
    as [_ Hused].
  apply (elem_of_list_to_set (C := gset Z)). rewrite <- Hused.
  unfold select_pairs. apply fill_by_rank_used.
  unfold pin_categories.
  apply (foldl_used (cover_missing (get_all_questions db)));
    [apply cover_missing_used|].
  eapply cover_category_covers; [exact Hrc|].
  rewrite build_cat_map_lookup. exact Hchosen.
Qed.

End Assembly.

Section Output.
Context {unicode : Unicode} {sklearn : Sklearn}.
Import Survey_database Q5_v1.

Lemma select_from_bank (bank : list question) p rc sel :
  p.1 ∈ bank ->
  Forall (fun p : pair => p.1 ∈ bank) (selected_pairs sel) ->
  Forall (fun p : pair => p.1 ∈ bank) (selected_pairs (select p rc sel)).
Proof.
  intros Hp Hsel. unfold select. simpl. apply Forall_app. split; [done|].
  by constructor.
Qed.

Lemma fill_by_rank_from_bank (bank : list question) qcount pairs sel :
  Forall (fun p : pair => p.1 ∈ bank) pairs ->
  Forall (fun p : pair => p.1 ∈ bank) (selected_pairs sel) ->
  Forall (fun p : pair => p.1 ∈ bank)
    (selected_pairs (fill_by_rank qcount pairs sel)).
Proof.
  intros Hpairs. revert sel.
  induction Hpairs as [|p pairs Hp _ IH]; intros sel Hsel; simpl; [done|].
  destruct (_ >=? _)%Z; [done|]. destruct (decide _); [by apply IH|].
  apply IH. by apply select_from_bank.
Qed.

Lemma pin_categories_from_bank req (bank : list question) pairs :
  Forall (fun p : pair => p.1 ∈ bank) pairs ->
  Forall (fun p : pair => p.1 ∈ bank)
    (selected_pairs (pin_categories req bank pairs)).
Proof.
  intros Hpairs. unfold pin_categories.
  set (P := fun sel => Forall (fun p : pair => p.1 ∈ bank) (selected_pairs sel)).
  assert (Hfold : forall (step : selection -> str -> selection) cats sel,
             (forall sel rc, P sel -> P (step sel rc)) ->
             P sel -> P (foldl step sel cats)).
  { intros step cats. induction cats as [|c cats IH]; intros sel Hstep Hsel;
      simpl; [done|]. apply IH; [done|]. by apply Hstep. }
  apply (Hfold (cover_missing bank)).
  { intros sel rc Hsel. unfold cover_missing.
    destruct (List.find _ bank) as [q|] eqn:Hfind; [|done].
    apply find_some in Hfind as [Hq _].
    apply select_from_bank; [by apply list_elem_of_In|done]. }
  apply (Hfold (cover_category (build_cat_map pairs))).
  { intros sel rc Hsel. unfold cover_category.
    destruct (default [] _) as [|chosen rest] eqn:Hc; [done|].
    destruct (decide _); [done|].
    apply select_from_bank; [|done].
    rewrite build_cat_map_lookup in Hc.
    assert (Hin : chosen ∈ of_category rc pairs) by (rewrite Hc; left).
    unfold of_category in Hin. apply list_elem_of_In, filter_In in Hin as [Hin _].
    rewrite Forall_forall in Hpairs. apply Hpairs. by apply list_elem_of_In. }
  constructor.
Qed.

(** X14.  Every entry of the output shows a question of the bank: its id,
    text, difficulty and options are those of a stored question. *)
Theorem generate_questionnaire_items (req : requirements) (db : data) :
  Forall (fun it =>
            exists q, q ∈ questions db
              /\ item_id it = id q
              /\ item_question_text it = question_text q
              /\ item_difficulty it = difficulty q
              /\ item_options it = options q)
    (ordered_questions (generate_questionnaire req db)).
Proof.
  unfold generate_questionnaire. simpl.
  assert (Hcand : Forall (fun p : pair => p.1 ∈ questions db) (candidates req db)).
  { apply Forall_forall. intros p Hp. by apply (candidates_from_bank req). }
  pose proof (fill_by_rank_from_bank (questions db) (question_count req)
                (candidates req db) _ Hcand
                (pin_categories_from_bank req (questions db) _ Hcand)) as Hsel.
  apply Forall_forall. intros it Hit.
  apply list_elem_of_fmap in Hit as (p & -> & Hp).
  rewrite Forall_forall in Hsel. exists p.1. split; [by apply Hsel|done].
Qed.

Lemma setdefault_append_keys cat qid d k :
  k ∈ map fst (setdefault_append cat qid d) <-> k = cat \/ k ∈ map fst d.
Proof.
  induction d as [|[c ids] d IH]; simpl.
  - rewrite list_elem_of_singleton. split; [by left|].
    intros [->|Hk]; [done|by apply elem_of_nil in Hk].
  - destruct (decide (c = cat)) as [->|Hne]; simpl.
    + rewrite elem_of_cons. tauto.
    + rewrite !elem_of_cons, IH. tauto.
Qed.

Lemma setdefault_append_NoDup cat qid d :
  NoDup (map fst d) -> NoDup (map fst (setdefault_append cat qid d)).
Proof.
  induction d as [|[c ids] d IH]; simpl; intros Hd.
  - apply NoDup_singleton.
  - apply NoDup_cons in Hd as [Hc Hd].
    destruct (decide (c = cat)) as [->|Hne]; simpl.
    + by apply NoDup_cons.
    + apply NoDup_cons. split; [|by apply IH].
      rewrite setdefault_append_keys. intros [->|Hin]; done.
Qed.

Lemma setdefault_append_concat cat qid d :
  concat (map snd (setdefault_append cat qid d)) ≡ₚ qid :: concat (map snd d).
Proof.
  induction d as [|[c ids] d IH]; simpl; [done|].
  destruct (decide (c = cat)); simpl.
  - rewrite <- app_assoc. simpl. by rewrite <- Permutation_middle.
  - rewrite IH. by rewrite <- Permutation_middle.
Qed.

Lemma setdefault_append_filed cat qid d :
  exists ids, (cat, ids) ∈ setdefault_append cat qid d /\ qid ∈ ids.
Proof.
  induction d as [|[c ids] d (ids' & Hin & Hq)]; simpl.
  - exists [qid]. split; left.
  - destruct (decide (c = cat)) as [->|Hne].
    + exists (ids ++ [qid]). split; [left|]. apply elem_of_app. right. left.
    + exists ids'. split; [by right|done].
Qed.

Lemma setdefault_append_keeps cat qid d k x ids :
  (k, ids) ∈ d -> x ∈ ids ->
  exists ids', (k, ids') ∈ setdefault_append cat qid d /\ x ∈ ids'.
Proof.
  induction d as [|[c l] d IH]; simpl; intros Hin Hx.
  - by apply elem_of_nil in Hin.
  - apply elem_of_cons in Hin as [[= <- <-]|Hin].
    + destruct (decide (k = cat)).
      * exists (ids ++ [qid]). split; [left|]. apply elem_of_app. by left.
      * exists ids. split; [left|done].
    + destruct (decide (c = cat)).
      * exists ids. split; [by right|done].
      * destruct (IH Hin Hx) as (ids' & Hin' & Hx').
        exists ids'. split; [by right|done].
Qed.

Lemma group_items_spec (items : list item) d :
  let groups :=
    foldl (fun d it => setdefault_append (group_key it) (item_id it) d) d items in
  (NoDup (map fst d) -> NoDup (map fst groups))
  /\ concat (map snd groups) ≡ₚ concat (map snd d) ++ map item_id items
  /\ (forall k x ids, (k, ids) ∈ d -> x ∈ ids ->
        exists ids', (k, ids') ∈ groups /\ x ∈ ids')
  /\ Forall (fun it => exists ids, (group_key it, ids) ∈ groups
                       /\ item_id it ∈ ids) items.
Proof.
  revert d. induction items as [|it items IH]; intros d; simpl.
  - repeat split; [done|by rewrite app_nil_r|by eauto|constructor].
  - destruct (IH (setdefault_append (group_key it) (item_id it) d))
      as (Hnd & Hperm & Hkeep & Hall).
    repeat split.
    + intros Hd. by apply Hnd, setdefault_append_NoDup.
    + rewrite Hperm, setdefault_append_concat. simpl.
      by rewrite <- Permutation_middle.
    + intros k x ids Hin Hx.
      destruct (setdefault_append_keeps (group_key it) (item_id it) d k x ids
                  Hin Hx) as (ids' & Hin' & Hx').
      by eapply Hkeep.
    + constructor; [|done].
      destruct (setdefault_append_filed (group_key it) (item_id it) d)
        as (ids & Hin & Hx).
      by eapply Hkeep.
Qed.

(** X15.  The grouping by category files every selected id once: the group
    keys are pairwise different, the groups together hold exactly the ids
    of [question_ids], and each entry is found in the group named after
    its displayed category ([Uncategorized] when that is empty). *)
Theorem by_category_partition (req : requirements) (db : data) :
  let out := generate_questionnaire req db in
  NoDup (map fst (by_category out))
  /\ concat (map snd (by_category out)) ≡ₚ question_ids out
  /\ NoDup (concat (map snd (by_category out)))
  /\ Forall (fun it => exists ids, (group_key it, ids) ∈ by_category out
                       /\ item_id it ∈ ids) (ordered_questions out).
Proof.
  intros out.
  destruct (group_items_spec (ordered_questions out) [])
    as (Hnd & Hperm & _ & Hall).
  assert (Hperm' : concat (map snd (by_category out)) ≡ₚ question_ids out).
  { exact Hperm. }
  repeat split.
  - apply Hnd. constructor.
  - exact Hperm'.
  - rewrite Hperm'. subst out. rewrite generate_questionnaire_ids.
    apply select_pairs_consistent.
  - exact Hall.
Qed.

End Output.

Section Output_closed.
Import Survey_database Q5_v1.
Local Existing Instance ascii_unicode.
Local Existing Instance Toy.sklearn.

Lemma generate_questionnaire_covers_witness :
  7%Z ∈ question_ids
         (generate_questionnaire
            (Toy.hotel_requirements 1 ["Satisfaction"; "Recommendation"]%string None)
            Toy.linked_store).
Proof.
  apply (generate_questionnaire_covers
           (Toy.hotel_requirements 1 ["Satisfaction"; "Recommendation"]%string None)
           Toy.linked_store (u "satisfaction")
           (Toy.stored_question 7 "How satisfied are you?" "satisfaction" 1, 0%Q)
           []).
  - apply list_elem_of_In. left. reflexivity.
  - vm_compute. reflexivity.
Defined.

End Output_closed.

(** ** Order and size of the output *)

Section Output_order.
Context {unicode : Unicode} {sklearn : Sklearn}.
Import Survey_database Q5_v1.

Lemma fill_by_rank_appends qcount pairs sel :
  exists filled,
    selected_pairs (fill_by_rank qcount pairs sel) = selected_pairs sel ++ filled
    /\ filled `sublist_of` pairs.
Proof.
  revert sel. induction pairs as [|p pairs IH]; intros sel; simpl.
  - exists []. by rewrite app_nil_r.
  - destruct (_ >=? _)%Z.
    { exists []. rewrite app_nil_r. split; [done|apply sublist_nil_l]. }
    destruct (decide _).
    + destruct (IH sel) as (filled & Heq & Hsub).
      exists filled. split; [done|by apply sublist_cons].
    + destruct (IH (select p None sel)) as (filled & Heq & Hsub).
      exists (p :: filled). split; [|by apply sublist_skip].
      rewrite Heq. unfold select. simpl. by rewrite <- app_assoc.
Qed.

Lemma sublist_strongly_sorted {A} (R : relation A) (l k : list A) :
  l `sublist_of` k -> StronglySorted R k -> StronglySorted R l.
Proof.
  induction 1 as [|x l k Hsub IH|x l k Hsub IH]; intros Hk.
  - constructor.
  - apply StronglySorted_inv in Hk as [Hk Hx]. constructor; [by apply IH|].
    apply Forall_forall. intros y Hy. rewrite Forall_forall in Hx.
    apply Hx. by eapply elem_of_sublist.
  - apply StronglySorted_inv in Hk as [Hk _]. by apply IH.
Qed.

(** X16.  The output lists the pinned questions first, then the questions of
    the fill pass, which are ranked candidates in their ranking order:
    best score first. *)
Theorem generate_questionnaire_order (req : requirements) (db : data) :
  exists filled,
    question_ids (generate_questionnaire req db)
    = selected_ids (pin_categories req (get_all_questions db) (candidates req db))
      ++ map (fun p : pair => id p.1) filled
    /\ filled `sublist_of` candidates req db
    /\ StronglySorted score_ge filled.
Proof.
  rewrite generate_questionnaire_ids. unfold select_pairs.
  destruct (fill_by_rank_appends (question_count req) (candidates req db)
              (pin_categories req (get_all_questions db) (candidates req db)))
    as (filled & Heq & Hsub).
  exists filled. split; [|split; [done|]].
  - unfold selected_ids. by rewrite Heq, map_app.
  - eapply sublist_strongly_sorted; [exact Hsub|].
    unfold candidates. apply rank_sorted.
Qed.

Lemma cover_category_length cat_map sel rc :
  (length (selected_pairs (cover_category cat_map sel rc))
   <= length (selected_pairs sel)
      + match default [] (cat_map !! rc) with [] => 0 | _ => 1 end)%nat.
Proof.
  unfold cover_category. destruct (default [] _) as [|chosen rest]; [lia|].
  destruct (decide _); [lia|]. rewrite select_length. lia.
Qed.

Lemma cover_missing_length full_bank sel rc :
  (length (selected_pairs (cover_missing full_bank sel rc))
   <= S (length (selected_pairs sel)))%nat.
Proof.
  unfold cover_missing. destruct (List.find _ _); [|lia].
  rewrite select_length. lia.
Qed.

Lemma pin_categories_length req full_bank pairs :
  (length (selected_pairs (pin_categories req full_bank pairs))
   <= length (categories req))%nat.
Proof.
  unfold pin_categories.
  set (cat_map := build_cat_map pairs).
  set (missing_test := fun rc : str =>
         match default [] (cat_map !! rc) with [] => true | _ => false end).
  assert (Hcover : forall cats sel,
            (length (selected_pairs (foldl (cover_category cat_map) sel cats))
             <= length (selected_pairs sel)
                + length (List.filter (fun rc => negb (missing_test rc)) cats))%nat).
  { induction cats as [|rc cats IH]; intros sel; simpl; [lia|].
    etrans; [apply IH|].
    pose proof (cover_category_length cat_map sel rc) as Hstep.
    unfold missing_test at 2.
    destruct (default [] (cat_map !! rc)); simpl in *; lia. }
  assert (Hmiss : forall cats sel,
            (length (selected_pairs (foldl (cover_missing full_bank) sel cats))
             <= length (selected_pairs sel) + length cats)%nat).
  { induction cats as [|rc cats IH]; intros sel; simpl; [lia|].
    etrans; [apply IH|].
    pose proof (cover_missing_length full_bank sel rc). lia. }
  etrans; [apply Hmiss|]. etrans; [apply Nat.add_le_mono_r, Hcover|]. simpl.
  assert (Hsplit : forall cats : list str,
            (length (List.filter (fun rc => negb (missing_test rc)) cats)
             + length (List.filter missing_test cats) = length cats)%nat).
  { induction cats as [|rc cats IH]; simpl; [done|].
    destruct (missing_test rc); simpl; lia. }
  rewrite Hsplit, length_map. done.
Qed.

(** X17.  At most one question is pinned per requested category, so the output
    never holds more questions than the larger of [question_count] and the
    number of requested categories. *)
Theorem generate_questionnaire_at_most (req : requirements) (db : data) :
  (Z.of_nat (length (ordered_questions (generate_questionnaire req db)))
   <= Z.max (question_count req) (Z.of_nat (length (categories req))))%Z.
Proof.
  unfold generate_questionnaire. simpl. rewrite length_map.
  unfold select_pairs. rewrite fill_by_rank_length.
  pose proof (pin_categories_length req (get_all_questions db)
                (candidates req db)).
  lia.
Qed.

End Output_order.
